(** * glidemq-hono: queue registry and event streaming

    A shallow embedding of [QueueRegistryImpl] (registry.ts, found in the
    sources after the middleware) and of the server-sent-event route
    (events.ts, [createEventsRoute] and the functions around it): the lazy
    registry of managed queues, the ref-counted map of shared
    [QueueEvents] objects, and the two stream sessions (live forwarding
    and polling of job counts).

    Conventions of the embedding.
    - A JavaScript object that has identity (a queue, a worker, a
      [QueueEvents] emitter, the [{queue, worker}] literal) carries a
      reference, a natural number handed out by an allocation counter;
      reference equality of the source is equality of references.
    - The glide-mq engine is outside the repository.  What it does is
      either recorded (constructor and [close] calls go to a log) or
      supplied from outside (whether a [close] promise rejects, what
      [getJobCounts] returns, whether a write succeeds).
    - An [async] function is cut at its [await]s: the part before an
      [await] and the continuation after it are separate definitions, so
      that other calls can be interleaved between them.
    - Counters ([eventId], [refCount]) are exact integers. *)

From stdpp Require Import gmap strings list pretty.
From Stdlib Require Import ZArith Lia.

Local Open Scope Z_scope.

(** ** Values shared by the modules *)

(** The data handed to [JSON.stringify]; the serializer itself belongs to
    the runtime, so a frame keeps the value that is serialized. *)
#[warnings="-register-all"]
Inductive json :=
| JNull
| JNum (z : Z)
| JStr (s : string)
| JObj (fields : list (string * json)).

(** [{ ...o, k: v }]: an existing key keeps its position and takes the new
    value, a new key goes last. *)
Fixpoint obj_set (k : string) (v : json) (o : list (string * json))
  : list (string * json) :=
  match o with
  | [] => [(k, v)]
  | (k', v') :: o' =>
      if decide (k' = k) then (k, v) :: o' else (k', v') :: obj_set k v o'
  end.

(** [ConnectionOptions] of glide-mq, as the README writes them. *)
Record ConnectionOptions := { addresses : list (string * Z) }.

(** A promise once it has settled. *)
Inductive settled (A : Type) :=
| Fulfilled (a : A)
| Rejected (reason : string).
Arguments Fulfilled {A} a.
Arguments Rejected {A} reason.

(** [Promise.allSettled]: fulfils with the list of outcomes whatever the
    outcomes are. *)
Definition allSettled {A} (ps : list (settled A)) : settled (list (settled A)) :=
  Fulfilled ps.

(** One message given to [stream.writeSSE]. *)
Record SSEMessage := {
  event : string;
  data : json;
  id : string
}.

(** The messages written so far carry the identifiers 0, 1, 2, ... in
    decimal, in the order of writing, and [eventId] is the next one. *)
Definition numbered (eventId : nat) (written : list SSEMessage) : Prop :=
  eventId = length written
  /\ id <$> written = pretty <$> seq 0 (length written).

(** ** The queue registry (registry.ts) *)

Module Registry.

Record Processor := { proc_tag : nat }.

Record QueueConfig := {
  processor : option Processor;
  concurrency : option Z;
  workerOpts : option (list (string * json))
}.

(** [queues] lists the own properties of the [queues] object in the order
    of [Object.keys]; a property name occurs once.  The object is an
    ordinary one, as an object literal gives it: behind its own
    properties are those it inherits from [Object.prototype]. *)
Record GlideMQConfig := {
  connection : option ConnectionOptions;
  queues : list (string * QueueConfig);
  prefix : option string;
  testing_flag : option bool
}.

(** Truthiness of the optional boolean [config.testing]. *)
Definition truthy (b : option bool) : bool :=
  match b with Some true => true | _ => false end.

(** The names of the properties of [Object.prototype]. *)
Definition Object_prototype : list string :=
  ["constructor"; "__defineGetter__"; "__defineSetter__"; "hasOwnProperty";
   "__lookupGetter__"; "__lookupSetter__"; "isPrototypeOf";
   "propertyIsEnumerable"; "toString"; "valueOf"; "__proto__";
   "toLocaleString"].

(** An inherited property holds a function ([__proto__]: the prototype
    itself).  It is truthy, and read as a queue configuration it has no
    [processor], no [concurrency] and no [workerOpts]. *)
Definition inherited : QueueConfig :=
  {| processor := None; concurrency := None; workerOpts := None |}.

(** [queues[name]], also the test [name in queues]: an own property, or
    else an inherited one. *)
Definition queues_lookup (name : string) (qs : list (string * QueueConfig))
  : option QueueConfig :=
  match List.find (fun kv => bool_decide (fst kv = name)) qs with
  | Some kv => Some (snd kv)
  | None => if bool_decide (name ∈ Object_prototype) then Some inherited else None
  end.

(** A value in an options object handed to an engine constructor. *)
Inductive value :=
| VUndefined
| VConnection (c : ConnectionOptions)
| VJson (j : json).

Definition options := list (string * value).

(** [options[k]] *)
Definition opts_get (k : string) (o : options) : option value :=
  snd <$> List.find (fun kv => bool_decide (fst kv = k)) o.

(** [{ ...o, k: v }] *)
Fixpoint opts_set (k : string) (v : value) (o : options) : options :=
  match o with
  | [] => [(k, v)]
  | (k', v') :: o' =>
      if decide (k' = k) then (k, v) :: o' else (k', v') :: opts_set k v o'
  end.

(** [{ ...o, ...src }]: the properties of [src] are set one after the
    other. *)
Definition spread (o src : options) : options :=
  fold_left (fun o kv => opts_set (fst kv) (snd kv) o) src o.

Definition of_connection (c : option ConnectionOptions) : value :=
  match c with Some c => VConnection c | None => VUndefined end.

Definition of_prefix (p : option string) : value :=
  match p with Some p => VJson (JStr p) | None => VUndefined end.

(** [config.workerOpts] as spread into an object literal: nothing when it
    is undefined. *)
Definition of_workerOpts (o : option (list (string * json))) : options :=
  match o with
  | Some fields => (fun kv => (fst kv, VJson (snd kv))) <$> fields
  | None => []
  end.

(** What the engine constructors were given. *)
Record Queue := {
  q_ref : nat;
  q_name : string;
  q_test : bool;
  q_connection : option ConnectionOptions;
  q_prefix : option string
}.

Record Worker := {
  w_ref : nat;
  w_name : string;
  w_test : bool;
  w_processor : Processor;
  w_opts : options
}.

(** What the worker's options read as. *)
Definition w_connection (w : Worker) : option value :=
  opts_get "connection" (w_opts w).

Definition w_prefix (w : Worker) : option value :=
  opts_get "prefix" (w_opts w).

Definition w_concurrency (w : Worker) : option value :=
  opts_get "concurrency" (w_opts w).

Record ManagedQueue := {
  mq_ref : nat;
  queue : Queue;
  worker : option Worker
}.

Inductive RegistryError :=
| ConfigurationError
| RegistryClosedError
| QueueNotConfiguredError (name : string).

Definition dquote : string := String (Ascii.ascii_of_nat 34) EmptyString.

Definition message (e : RegistryError) : string :=
  match e with
  | ConfigurationError =>
      "GlideMQ: connection is required when testing mode is disabled"
  | RegistryClosedError => "GlideMQ: registry is closed"
  | QueueNotConfiguredError name =>
      "GlideMQ: queue " +:+ dquote +:+ name +:+ dquote +:+ " is not configured"
  end.

(** Calls into the engine, in the order they are made. *)
Inductive effect :=
| ECreate (name : string) (entry : ManagedQueue)
| ECloseWorker (w : nat)
| ECloseQueue (q : nat).

(** The fields of the class, then the engine side: the allocation
    counter, the log of engine calls, and the continuation of a
    [closeAll] waiting behind its [await], with the [closeOps] it waits
    for. *)
Record state := {
  config : GlideMQConfig;
  managed : gmap string ManagedQueue;
  closed : bool;
  next_ref : nat;
  log : list effect;
  pending : option (list (settled unit))
}.

Definition set_managed (m : gmap string ManagedQueue) (st : state) : state :=
  {| config := config st; managed := m; closed := closed st;
     next_ref := next_ref st; log := log st; pending := pending st |}.

Definition set_closed (b : bool) (st : state) : state :=
  {| config := config st; managed := managed st; closed := b;
     next_ref := next_ref st; log := log st; pending := pending st |}.

Definition set_next_ref (n : nat) (st : state) : state :=
  {| config := config st; managed := managed st; closed := closed st;
     next_ref := n; log := log st; pending := pending st |}.

Definition set_log (l : list effect) (st : state) : state :=
  {| config := config st; managed := managed st; closed := closed st;
     next_ref := next_ref st; log := l; pending := pending st |}.

Definition set_pending (p : option (list (settled unit))) (st : state) : state :=
  {| config := config st; managed := managed st; closed := closed st;
     next_ref := next_ref st; log := log st; pending := p |}.

(** [new QueueRegistryImpl(config)]. *)
Definition new (cfg : GlideMQConfig) : RegistryError + state :=
  if negb (truthy (testing_flag cfg)) && negb (bool_decide (is_Some (connection cfg)))
  then inl ConfigurationError
  else inr {| config := cfg; managed := ∅; closed := false;
              next_ref := 0; log := []; pending := None |}.

Definition testing (st : state) : bool :=
  bool_decide (testing_flag (config st) = Some true).

Definition has (name : string) (st : state) : bool :=
  bool_decide (is_Some (queues_lookup name (queues (config st)))).

Definition names (st : state) : list string :=
  fst <$> queues (config st).

Definition getConnection (st : state) : option ConnectionOptions :=
  connection (config st).

Definition getPrefix (st : state) : option string :=
  prefix (config st).

Definition createEntry (name : string) (qc : QueueConfig) (st : state)
  : ManagedQueue * state :=
  let r := next_ref st in
  let q := {| q_ref := r; q_name := name; q_test := false;
              q_connection := connection (config st);
              q_prefix := prefix (config st) |} in
  match processor qc with
  | Some p =>
      let w := {| w_ref := S r; w_name := name; w_test := false;
                  w_processor := p;
                  w_opts :=
                    spread
                      [("connection", of_connection (connection (config st)));
                       ("prefix", of_prefix (prefix (config st)));
                       ("concurrency",
                        VJson (JNum (default 1 (concurrency qc))))]
                      (of_workerOpts (workerOpts qc)) |} in
      ({| mq_ref := S (S r); queue := q; worker := Some w |},
       set_next_ref (S (S (S r))) st)
  | None =>
      ({| mq_ref := S r; queue := q; worker := None |},
       set_next_ref (S (S r)) st)
  end.

Definition createTestEntry (name : string) (qc : QueueConfig) (st : state)
  : ManagedQueue * state :=
  let r := next_ref st in
  let q := {| q_ref := r; q_name := name; q_test := true;
              q_connection := None; q_prefix := None |} in
  match processor qc with
  | Some p =>
      let w := {| w_ref := S r; w_name := name; w_test := true;
                  w_processor := p;
                  w_opts :=
                    [("concurrency",
                      VJson (JNum (default 1 (concurrency qc))))] |} in
      ({| mq_ref := S (S r); queue := q; worker := Some w |},
       set_next_ref (S (S (S r))) st)
  | None =>
      ({| mq_ref := S r; queue := q; worker := None |},
       set_next_ref (S (S r)) st)
  end.

Definition get (name : string) (st : state)
  : (RegistryError + ManagedQueue) * state :=
  if closed st then (inl RegistryClosedError, st)
  else
    match managed st !! name with
    | Some existing => (inr existing, st)
    | None =>
        match queues_lookup name (queues (config st)) with
        | None => (inl (QueueNotConfiguredError name), st)
        | Some queueConfig =>
            let '(entry, st1) :=
              if truthy (testing_flag (config st))
              then createTestEntry name queueConfig st
              else createEntry name queueConfig st in
            (inr entry,
             set_managed (<[name := entry]> (managed st1))
               (set_log (log st1 ++ [ECreate name entry]) st1))
        end
    end.

(** The names for which a managed queue was built, in the order of
    building. *)
Definition created_names (l : list effect) : list string :=
  omap (fun e => match e with ECreate n _ => Some n | _ => None end) l.

(** The entries of the map in the order of [Map.values()], which is the
    order of insertion: [get] logs a creation with every [managed.set],
    and an entry is only ever removed by [managed.clear()]. *)
Definition managed_entries (st : state) : list (string * ManagedQueue) :=
  omap (fun n => (fun mq => (n, mq)) <$> managed st !! n)
       (created_names (log st)).

Section Engine.

(** Whether the promise returned by [close()] of the object with a given
    reference rejects. *)
Variable close_rejects : nat -> bool.

Definition close_promise (r : nat) : settled unit :=
  if close_rejects r then Rejected "close failed" else Fulfilled tt.

(** The body of the [for] loop of [closeAll] for one managed queue: the
    close calls it makes and the promises it pushes. *)
Definition close_entry (mq : ManagedQueue) : list (effect * settled unit) :=
  match worker mq with
  | Some w => [(ECloseWorker (w_ref w), close_promise (w_ref w))]
  | None => []
  end ++ [(ECloseQueue (q_ref (queue mq)), close_promise (q_ref (queue mq)))].

(** [closeAll] from its first line to the [await], when the registry was
    not closed.  The result is the list [closeOps].  All close calls are
    made before the one [await], for the entries in the order of
    [Map.values()]. *)
Definition closeAll_enter (st : state) : list (settled unit) * state :=
  let ops := flat_map close_entry (snd <$> managed_entries st) in
  (snd <$> ops,
   set_pending (Some (snd <$> ops))
     (set_log (log st ++ (fst <$> ops)) (set_closed true st))).

(** The continuation behind [await Promise.allSettled(closeOps)]: a
    rejected [await] would throw past [managed.clear()]. *)
Definition closeAll_resume (awaited : settled (list (settled unit))) (st : state)
  : settled unit * state :=
  match awaited with
  | Fulfilled _ => (Fulfilled tt, set_pending None (set_managed ∅ st))
  | Rejected reason => (Rejected reason, set_pending None st)
  end.

(** [closeAll()] awaited by its caller with nothing interleaved. *)
Definition closeAll (st : state) : settled unit * state :=
  if closed st then (Fulfilled tt, st)
  else
    let '(closeOps, st1) := closeAll_enter st in
    closeAll_resume (allSettled closeOps) st1.

(** The calls a user of the registry can make.  [CloseAllCall] and
    [CloseAllSettle] are the two halves of a [closeAll()] that is not
    awaited at once: the call runs to the [await], and the continuation
    runs when the close promises have settled. *)
Inductive op :=
| Get (name : string)
| Has (name : string)
| Names
| GetConnection
| GetPrefix
| CloseAll
| CloseAllCall
| CloseAllSettle.

Definition step (st : state) (o : op) : state :=
  match o with
  | Get name => snd (get name st)
  | Has _ | Names | GetConnection | GetPrefix => st
  | CloseAll => snd (closeAll st)
  | CloseAllCall => if closed st then st else snd (closeAll_enter st)
  | CloseAllSettle =>
      match pending st with
      | Some closeOps => snd (closeAll_resume (allSettled closeOps) st)
      | None => st
      end
  end.

Definition run (ops : list op) (st : state) : state :=
  fold_left step ops st.

End Engine.

(** How often the registry built a managed queue for [name]. *)
Definition creations (name : string) (st : state) : nat :=
  length (filter (fun n => n = name) (created_names (log st))).

(** *** The invariant of the registry *)

Record inv (st : state) : Prop := {
  inv_managed_configured :
    forall n mq, managed st !! n = Some mq ->
                 is_Some (queues_lookup n (queues (config st)));
  inv_pending_closed : is_Some (pending st) -> closed st = true;
  inv_closed_cleared :
    closed st = true -> pending st = None -> managed st = ∅;
  inv_created_once : forall n, (creations n st <= 1)%nat;
  inv_created_managed :
    forall n mq, managed st !! n = Some mq -> creations n st = 1%nat;
  inv_created_fresh :
    forall n, closed st = false -> managed st !! n = None ->
              creations n st = 0%nat
}.

End Registry.

(** ** The event route, live mode (events.ts) *)

Module Events.

(** A [handler] closure of [createLiveSSE]: the session whose callback
    made it and the event type it forwards.  Two closures are the same
    object exactly when both agree. *)
Record Handler := { h_session : nat; h_event : string }.

#[global] Instance Handler_eq_dec : EqDecision Handler.
Proof. solve_decision. Defined.

(** [{ event, handler }], also the registration an emitter keeps. *)
Definition Listener : Type := string * Handler.

(** Removal of the most recently added occurrence. *)
Fixpoint remove_last (x : Listener) (l : list Listener) : list Listener :=
  match l with
  | [] => []
  | y :: l' =>
      if decide (x ∈ l') then y :: remove_last x l'
      else if decide (y = x) then l' else y :: l'
  end.

(** A [QueueEvents] object of the engine: what its constructor was given,
    its listeners in the order of registration, and how often [close()]
    was called on it. *)
Record QueueEvents := {
  qe_name : string;
  qe_connection : ConnectionOptions;
  qe_prefix : option string;
  qe_listeners : list Listener;
  qe_closes : nat
}.

Definition set_listeners (l : list Listener) (qe : QueueEvents) : QueueEvents :=
  {| qe_name := qe_name qe; qe_connection := qe_connection qe;
     qe_prefix := qe_prefix qe; qe_listeners := l; qe_closes := qe_closes qe |}.

Definition on (event : string) (handler : Handler) (qe : QueueEvents) : QueueEvents :=
  set_listeners (qe_listeners qe ++ [(event, handler)]) qe.

Definition removeListener (event : string) (handler : Handler) (qe : QueueEvents)
  : QueueEvents :=
  set_listeners (remove_last (event, handler) (qe_listeners qe)) qe.

Definition close (qe : QueueEvents) : QueueEvents :=
  {| qe_name := qe_name qe; qe_connection := qe_connection qe;
     qe_prefix := qe_prefix qe; qe_listeners := qe_listeners qe;
     qe_closes := S (qe_closes qe) |}.

(** [queueEvents] is a reference into the heap of [QueueEvents] objects. *)
Record EventSubscription := {
  queueEvents : nat;
  refCount : Z
}.

(** Where the callback given to [streamSSE] is: at the [while] test, at
    the awaited heartbeat write, at the awaited sleep, or finished (by
    leaving the loop, or by an exception that went through [finally]). *)
Inductive phase :=
| LoopHead
| AwaitWrite
| AwaitSleep
| Ended (thrown : bool).

(** The variables of one call of [createLiveSSE].  [written] keeps the
    messages given to [stream.writeSSE] in the order of the calls;
    [releases] counts the calls of [releaseQueueEvents] made by the
    session. *)
Record session := {
  s_name : string;
  s_queueEvents : nat;
  eventId : nat;
  running : bool;
  listeners : list Listener;
  written : list SSEMessage;
  at_phase : phase;
  releases : nat
}.

Definition set_running (b : bool) (s : session) : session :=
  {| s_name := s_name s; s_queueEvents := s_queueEvents s;
     eventId := eventId s; running := b; listeners := listeners s;
     written := written s; at_phase := at_phase s; releases := releases s |}.

Definition set_phase (p : phase) (s : session) : session :=
  {| s_name := s_name s; s_queueEvents := s_queueEvents s;
     eventId := eventId s; running := running s; listeners := listeners s;
     written := written s; at_phase := p; releases := releases s |}.

Definition push_listener (l : Listener) (s : session) : session :=
  {| s_name := s_name s; s_queueEvents := s_queueEvents s;
     eventId := eventId s; running := running s;
     listeners := listeners s ++ [l];
     written := written s; at_phase := at_phase s; releases := releases s |}.

Definition count_release (s : session) : session :=
  {| s_name := s_name s; s_queueEvents := s_queueEvents s;
     eventId := eventId s; running := running s; listeners := listeners s;
     written := written s; at_phase := at_phase s;
     releases := S (releases s) |}.

(** [stream.writeSSE({ event, data, id: String(eventId++) })]: the call is
    recorded and the counter moves on, whatever becomes of the write. *)
Definition writeSSE (ev : string) (payload : json) (s : session) : session :=
  {| s_name := s_name s; s_queueEvents := s_queueEvents s;
     eventId := S (eventId s); running := running s;
     listeners := listeners s;
     written := written s
                ++ [{| event := ev; data := payload; id := pretty (eventId s) |}];
     at_phase := at_phase s; releases := releases s |}.

(** The module-level map [subscriptions], the engine's [QueueEvents]
    objects by reference, and the sessions by the order of their
    requests. *)
Record world := {
  subscriptions : gmap string EventSubscription;
  heap : list QueueEvents;
  sessions : list session
}.

Definition set_subscriptions (m : gmap string EventSubscription) (w : world) : world :=
  {| subscriptions := m; heap := heap w; sessions := sessions w |}.

Definition set_heap (h : list QueueEvents) (w : world) : world :=
  {| subscriptions := subscriptions w; heap := h; sessions := sessions w |}.

Definition set_sessions (l : list session) (w : world) : world :=
  {| subscriptions := subscriptions w; heap := heap w; sessions := l |}.

Definition on_source (r : nat) (f : QueueEvents -> QueueEvents) (w : world) : world :=
  set_heap (alter f r (heap w)) w.

Definition on_session (sid : nat) (f : session -> session) (w : world) : world :=
  set_sessions (alter f sid (sessions w)) w.

Definition empty_world : world :=
  {| subscriptions := ∅; heap := []; sessions := [] |}.

Definition acquireQueueEvents (name : string) (connectionOpts : ConnectionOptions)
    (prefix : option string) (w : world) : nat * world :=
  match subscriptions w !! name with
  | Some existing =>
      (queueEvents existing,
       set_subscriptions
         (<[name := {| queueEvents := queueEvents existing;
                       refCount := refCount existing + 1 |}]> (subscriptions w)) w)
  | None =>
      let r := length (heap w) in
      let created := {| qe_name := name; qe_connection := connectionOpts;
                        qe_prefix := prefix; qe_listeners := [];
                        qe_closes := 0 |} in
      (r,
       set_subscriptions
         (<[name := {| queueEvents := r; refCount := 1 |}]> (subscriptions w))
         (set_heap (heap w ++ [created]) w))
  end.

Definition releaseQueueEvents (name : string) (w : world) : world :=
  match subscriptions w !! name with
  | None => w
  | Some sub =>
      let rc := refCount sub - 1 in
      if rc <=? 0
      then set_subscriptions (delete name (subscriptions w))
             (on_source (queueEvents sub) close w)
      else set_subscriptions
             (<[name := {| queueEvents := queueEvents sub; refCount := rc |}]>
                (subscriptions w)) w
  end.

(** Calls of the two functions, for histories of the map alone. *)
Inductive mux_op :=
| Acquire (name : string) (connectionOpts : ConnectionOptions) (prefix : option string)
| Release (name : string).

Definition mux_step (w : world) (o : mux_op) : world :=
  match o with
  | Acquire name c p => snd (acquireQueueEvents name c p w)
  | Release name => releaseQueueEvents name w
  end.

Definition mux_run (ops : list mux_op) (w : world) : world :=
  fold_left mux_step ops w.

Definition eventTypes : list string :=
  ["completed"; "failed"; "progress"; "stalled"; "active"; "waiting"].

(** The body of a [handler] closure. *)
Definition handler (h : Handler) (args : list (string * json)) (w : world) : world :=
  on_session (h_session h)
    (fun s =>
       if running s
       then writeSSE (h_event h) (JObj (obj_set "queue" (JStr (s_name s)) args)) s
       else s) w.

(** One round of the [for] loop over [eventTypes]. *)
Definition attach (sid : nat) (queueEvents : nat) (eventType : string) (w : world)
  : world :=
  let h := {| h_session := sid; h_event := eventType |} in
  on_session sid (push_listener (eventType, h))
    (on_source queueEvents (on eventType h) w).

(** The [finally] block. *)
Definition cleanup (sid : nat) (thrown : bool) (w : world) : world :=
  match sessions w !! sid with
  | None => w
  | Some s =>
      let w1 := foldl (fun w l =>
                         on_source (s_queueEvents s) (removeListener (fst l) (snd l)) w)
                  w (listeners s) in
      let w2 := releaseQueueEvents (s_name s) w1 in
      on_session sid (fun s => count_release (set_phase (Ended thrown) s)) w2
  end.

(** The [while (running)] test and what follows it up to the next
    [await]: the heartbeat write, or the way out through [finally]. *)
Definition loop_head (sid : nat) (now : Z) (w : world) : world :=
  match sessions w !! sid with
  | None => w
  | Some s =>
      if running s
      then on_session sid
             (fun s => set_phase AwaitWrite
                         (writeSSE "heartbeat" (JObj [("time", JNum now)]) s)) w
      else cleanup sid false w
  end.

(** [createLiveSSE] with [connection = registry.getConnection()] and
    [prefix = registry.getPrefix()], up to the first [await] of the stream
    callback.  Without a connection the route answers 500 and nothing is
    acquired. *)
Definition createLiveSSE (connection : option ConnectionOptions)
    (prefix : option string) (name : string) (now : Z) (w : world) : world :=
  match connection with
  | None => w
  | Some conn =>
      let '(queueEvents, w1) := acquireQueueEvents name conn prefix w in
      let sid := length (sessions w1) in
      let fresh := {| s_name := name; s_queueEvents := queueEvents;
                      eventId := 0; running := true; listeners := [];
                      written := []; at_phase := LoopHead; releases := 0 |} in
      let w2 := set_sessions (sessions w1 ++ [fresh]) w1 in
      let w3 := foldl (fun w eventType => attach sid queueEvents eventType w)
                  w2 eventTypes in
      loop_head sid now w3
  end.

(** What happens to the sessions from outside: a request opens one, the
    engine emits an event on a [QueueEvents] object, the client goes
    away, an awaited write or sleep settles. *)
Inductive ev :=
| Open (name : string) (connection : option ConnectionOptions)
       (prefix : option string) (now : Z)
| Emit (source : nat) (eventType : string) (args : list (string * json))
| Abort (sid : nat)
| WriteSettled (sid : nat) (ok : bool)
| SleepSettled (sid : nat) (ok : bool) (now : Z).

Definition emit (source : nat) (eventType : string) (args : list (string * json))
    (w : world) : world :=
  match heap w !! source with
  | None => w
  | Some qe =>
      foldl (fun w (l : Listener) =>
               if decide (fst l = eventType) then handler (snd l) args w else w)
        w (qe_listeners qe)
  end.

Definition step (w : world) (e : ev) : world :=
  match e with
  | Open name connection prefix now => createLiveSSE connection prefix name now w
  | Emit source eventType args => emit source eventType args w
  | Abort sid => on_session sid (set_running false) w
  | WriteSettled sid ok =>
      match at_phase <$> sessions w !! sid with
      | Some AwaitWrite =>
          if ok then on_session sid (set_phase AwaitSleep) w
          else cleanup sid false w
      | _ => w
      end
  | SleepSettled sid ok now =>
      match at_phase <$> sessions w !! sid with
      | Some AwaitSleep =>
          if ok then loop_head sid now (on_session sid (set_phase LoopHead) w)
          else cleanup sid true w
      | _ => w
      end
  end.

Definition run (evs : list ev) (w : world) : world :=
  fold_left step evs w.

Definition ended (s : session) : bool :=
  match at_phase s with Ended _ => true | _ => false end.

(** The session whose callback an event resumes or whose client it
    concerns; a request and an engine event have none. *)
Definition of_session (e : ev) : option nat :=
  match e with
  | Abort sid | WriteSettled sid _ | SleepSettled sid _ _ => Some sid
  | Open _ _ _ _ | Emit _ _ _ => None
  end.

(** *** Invariants of the subscriptions and the sessions *)

(** Every entry of the map counts at least one holder. *)
Definition refcounts_positive (w : world) : Prop :=
  forall n sub, subscriptions w !! n = Some sub -> 1 <= refCount sub.

(** The numbering of the messages, for one session and for all. *)
Definition session_numbered (s : session) : Prop :=
  numbered (eventId s) (written s).

Definition all_numbered (w : world) : Prop :=
  Forall session_numbered (sessions w).

(** A change of one session that keeps the numbering. *)
Definition keeps_numbering (f : session -> session) : Prop :=
  forall s, session_numbered s -> session_numbered (f s).

(** The listeners made by the session [sid]. *)
Definition session_listeners (sid : nat) : list Listener :=
  (fun ty => (ty, {| h_session := sid; h_event := ty |})) <$> eventTypes.

(** The listeners registered on the object with reference [o]. *)
Definition listeners_at (w : world) (o : nat) : option (list Listener) :=
  qe_listeners <$> heap w !! o.

(** The listeners [ls] removed one after the other. *)
Definition remove_all (ls l : list Listener) : list Listener :=
  foldl (fun l x => remove_last x l) l ls.

(** Several [listeners.push] in a row. *)
Definition push_listeners (ls : list Listener) (s : session) : session :=
  {| s_name := s_name s; s_queueEvents := s_queueEvents s;
     eventId := eventId s; running := running s;
     listeners := listeners s ++ ls;
     written := written s; at_phase := at_phase s; releases := releases s |}.

(** The invariant that ties the sessions to the listeners registered on
    the [QueueEvents] objects. *)
Record wf (w : world) : Prop := {
  wf_releases :
    forall sid s, sessions w !! sid = Some s ->
                  releases s = if ended s then 1%nat else 0%nat;
  wf_own :
    forall sid s, sessions w !! sid = Some s ->
                  listeners s = session_listeners sid;
  wf_attached :
    forall sid s, sessions w !! sid = Some s -> ended s = false ->
                  exists ls, listeners_at w (s_queueEvents s) = Some ls
                             /\ listeners s ⊆ ls;
  wf_listener :
    forall o ls l, listeners_at w o = Some ls -> l ∈ ls ->
                   exists s, sessions w !! h_session (snd l) = Some s
                             /\ ended s = false
                             /\ s_queueEvents s = o
                             /\ l ∈ listeners s;
  wf_nodup : forall o ls, listeners_at w o = Some ls -> NoDup ls;
  wf_subscribed :
    forall n sub, subscriptions w !! n = Some sub ->
                  (queueEvents sub < length (heap w))%nat
}.

(** What the invariant looks at in a session. *)
Definition lifecycle (s : session) : list Listener * nat * bool * nat :=
  (listeners s, s_queueEvents s, ended s, releases s).

(** The session as [createLiveSSE] has it when the listeners are
    attached and the loop is about to start. *)
Definition attached_session (name : string) (q sid : nat) : session :=
  {| s_name := name; s_queueEvents := q; eventId := 0; running := true;
     listeners := session_listeners sid; written := [];
     at_phase := LoopHead; releases := 0 |}.



End Events.

(** ** The event route, testing mode (events.ts) *)

Module Polling.

(** A job-count object, as [Object.entries] lists it. *)
Abbreviation Counts := (list (string * Z)).

(** [(lastCounts as any)[state] ?? 0] *)
Definition count_of (state : string) (c : Counts) : Z :=
  default 0 (snd <$> List.find (fun kv => bool_decide (fst kv = state)) c).

Definition initial_counts : Counts :=
  [("waiting", 0); ("active", 0); ("completed", 0); ("failed", 0); ("delayed", 0)].

(** Where the stream callback is: at the awaited [getJobCounts], at the
    awaited sleep, or finished. *)
Inductive phase :=
| AwaitCounts
| AwaitSleep
| Ended (thrown : bool).

Record session := {
  name : string;
  queue : Registry.Queue;
  eventId : nat;
  lastCounts : Counts;
  running : bool;
  written : list SSEMessage;
  at_phase : phase
}.

Definition set_running (b : bool) (s : session) : session :=
  {| name := name s; queue := queue s; eventId := eventId s;
     lastCounts := lastCounts s; running := b; written := written s;
     at_phase := at_phase s |}.

Definition set_phase (p : phase) (s : session) : session :=
  {| name := name s; queue := queue s; eventId := eventId s;
     lastCounts := lastCounts s; running := running s; written := written s;
     at_phase := p |}.

Definition set_lastCounts (c : Counts) (s : session) : session :=
  {| name := name s; queue := queue s; eventId := eventId s;
     lastCounts := c; running := running s; written := written s;
     at_phase := at_phase s |}.

(** [stream.writeSSE({ event, data, id: String(eventId++) })] *)
Definition writeSSE (ev : string) (payload : json) (s : session) : session :=
  {| name := name s; queue := queue s; eventId := S (eventId s);
     lastCounts := lastCounts s; running := running s;
     written := written s
                ++ [{| event := ev; data := payload; id := pretty (eventId s) |}];
     at_phase := at_phase s |}.

(** [{ queue: name, state, count, prev }] *)
Definition delta (name state : string) (count prev : Z) : json :=
  JObj [("queue", JStr name); ("state", JStr state);
        ("count", JNum count); ("prev", JNum prev)].

(** [createTestingSSE] up to the first [await] of the stream callback:
    [registry.get(name)] may throw; otherwise the loop is entered with
    [running] true and [getJobCounts] is called. *)
Definition createTestingSSE (name : string) (registry : Registry.state)
  : (Registry.RegistryError + session) * Registry.state :=
  match Registry.get name registry with
  | (inl err, registry') => (inl err, registry')
  | (inr managed, registry') =>
      (inr {| name := name; queue := Registry.queue managed; eventId := 0;
              lastCounts := initial_counts; running := true; written := [];
              at_phase := AwaitCounts |},
       registry')
  end.

(** [stream.onAbort]'s callback runs while a write is awaited. *)
Definition abort_if (aborted : bool) (s : session) : session :=
  if aborted then set_running false s else s.

(** The baseline holds the count [v] for [state]: it has that entry, or
    it has no entry for the state and [v] is 0. *)
Definition holds (last : Counts) (state : string) (v : Z) : Prop :=
  (state, v) ∈ last \/ ((state ∉ fst <$> last) /\ v = 0).

Section Stream.

(** Whether the write of the message with a given sequence number
    succeeds, and whether the client goes away while that write is
    awaited. *)
Variable write_ok : nat -> bool.
Variable aborted_during : nat -> bool.

(** The [for] loop over [Object.entries(counts)].  The boolean tells
    whether the loop ran to its end; a rejected write leaves it through
    [catch].  The loop does not read [running]: after an abort during one
    write the frames of the remaining entries are written all the
    same. *)
Fixpoint diff_counts (entries : Counts) (s : session) : bool * session :=
  match entries with
  | [] => (true, s)
  | (state, count) :: rest =>
      let prev := count_of state (lastCounts s) in
      if decide (count <> prev)
      then
        let s1 := abort_if (aborted_during (eventId s))
                    (writeSSE "counts" (delta (name s) state count prev) s) in
        if write_ok (eventId s) then diff_counts rest s1 else (false, s1)
      else diff_counts rest s
  end.

(** What happens to the session from outside: the awaited read or sleep
    settles, or the client goes away while one of the two is awaited.
    The writes of one tick are taken together, with [write_ok] and
    [aborted_during] telling what happens at each of them. *)
Inductive ev :=
| CountsSettled (result : option Counts)
| SleepSettled (ok : bool)
| Abort.

Definition step (s : session) (e : ev) : session :=
  match e with
  | Abort => set_running false s
  | CountsSettled result =>
      match at_phase s with
      | AwaitCounts =>
          match result with
          | None => set_phase (Ended false) s
          | Some counts =>
              if negb (running s) then set_phase (Ended false) s
              else
                let '(finished, s1) := diff_counts counts s in
                if finished
                then set_phase AwaitSleep (set_lastCounts counts s1)
                else set_phase (Ended false) s1
          end
      | _ => s
      end
  | SleepSettled ok =>
      match at_phase s with
      | AwaitSleep =>
          if ok
          then if running s then set_phase AwaitCounts s
               else set_phase (Ended false) s
          else set_phase (Ended true) s
      | _ => s
      end
  end.

Definition run (evs : list ev) (s : session) : session :=
  fold_left step evs s.

End Stream.

(** One frame for each entry whose count differs from the baseline, in
    the order of the entries, numbered from [start]. *)
Definition delta_frames (name : string) (last counts : Counts) (start : nat)
  : list SSEMessage :=
  imap (fun i (e : string * Z) =>
          {| event := "counts";
             data := delta name (fst e) (snd e) (count_of (fst e) last);
             id := pretty (start + i)%nat |})
       (filter (fun e : string * Z => snd e <> count_of (fst e) last) counts).

End Polling.

(** ** What the registry builds *)

Module RegistryShape.
Import Registry.

(** The references of the objects behind one managed queue: the queue,
    the worker if there is one, and the [{queue, worker}] object. *)
Definition entry_refs (mq : ManagedQueue) : list nat :=
  q_ref (queue mq)
  :: match worker mq with Some w => [w_ref w] | None => [] end
  ++ [mq_ref mq].

(** What [createEntry] and [createTestEntry] make of the configuration
    [qc] of the queue [name]. *)
Definition built_from (cfg : GlideMQConfig) (name : string) (qc : QueueConfig)
    (mq : ManagedQueue) : Prop :=
  q_name (queue mq) = name
  /\ q_test (queue mq) = truthy (testing_flag cfg)
  /\ q_connection (queue mq)
     = (if truthy (testing_flag cfg) then None else connection cfg)
  /\ q_prefix (queue mq)
     = (if truthy (testing_flag cfg) then None else prefix cfg)
  /\ (processor qc = None -> worker mq = None)
  /\ (forall p, processor qc = Some p ->
        exists w,
          worker mq = Some w
          /\ w_name w = name
          /\ w_processor w = p
          /\ w_test w = truthy (testing_flag cfg)
          /\ w_opts w
             = (if truthy (testing_flag cfg)
                then [("concurrency", VJson (JNum (default 1 (concurrency qc))))]
                else spread
                       [("connection", of_connection (connection cfg));
                        ("prefix", of_prefix (prefix cfg));
                        ("concurrency",
                         VJson (JNum (default 1 (concurrency qc))))]
                       (of_workerOpts (workerOpts qc)))).

Definition is_create (e : effect) : Prop :=
  match e with ECreate _ _ => True | _ => False end.

(** The managed queues are built from their configuration, their
    references were handed out by the counter and are shared by no two
    of them, and nothing is closed before [closeAll]. *)
Record shaped (st : state) : Prop := {
  shaped_built :
    forall n mq, managed st !! n = Some mq ->
                 exists qc, queues_lookup n (queues (config st)) = Some qc
                            /\ built_from (config st) n qc mq;
  shaped_bound :
    forall n mq r, managed st !! n = Some mq -> r ∈ entry_refs mq ->
                   (r < next_ref st)%nat;
  shaped_apart :
    forall n1 n2 mq1 mq2 r,
      n1 <> n2 -> managed st !! n1 = Some mq1 -> managed st !! n2 = Some mq2 ->
      r ∈ entry_refs mq1 -> r ∉ entry_refs mq2;
  shaped_nodup :
    forall n mq, managed st !! n = Some mq -> NoDup (entry_refs mq);
  shaped_connected :
    truthy (testing_flag (config st)) = false -> is_Some (connection (config st));
  shaped_log : closed st = false -> Forall is_create (log st)
}.

End RegistryShape.

(** ** Counting the holders of a subscription *)

Module Holders.
Import Events.

(** What one call does to the number of holders of [name]: an acquire
    adds one, a release takes one away if there is one. *)
Definition count_call (name : string) (k : Z) (o : mux_op) : Z :=
  match o with
  | Acquire n _ _ => if decide (n = name) then k + 1 else k
  | Release n => if decide (n = name) then Z.max 0 (k - 1) else k
  end.

(** The acquires of [name] in [ops] that no later release has matched. *)
Definition holders (name : string) (ops : list mux_op) : Z :=
  fold_left (count_call name) ops 0.

(** The sessions on [name] that have not ended. *)
Definition live_on (name : string) (l : list session) : nat :=
  length (filter (fun s => ended s = false /\ s_name s = name) l).

(** The map of subscriptions agrees with the sessions: the count of an
    entry is the number of sessions streaming its queue, those sessions
    hold the source of the entry, that source was built for the queue
    and has not been closed, and no source is closed twice. *)
Record accounted (w : world) : Prop := {
  acc_count :
    forall name,
      refCount <$> subscriptions w !! name
      = if decide (live_on name (sessions w) = 0%nat) then None
        else Some (Z.of_nat (live_on name (sessions w)));
  acc_source :
    forall sid s sub,
      sessions w !! sid = Some s -> ended s = false ->
      subscriptions w !! s_name s = Some sub ->
      queueEvents sub = s_queueEvents s;
  acc_open :
    forall name sub,
      subscriptions w !! name = Some sub ->
      exists qe, heap w !! queueEvents sub = Some qe
                 /\ qe_name qe = name /\ qe_closes qe = 0%nat;
  acc_once :
    forall o qe, heap w !! o = Some qe -> (qe_closes qe <= 1)%nat
}.

End Holders.

(** ** Forwarding of engine events and the life of a session *)

Module Forwarding.
Import Events.

(** Reading a property of an object. *)
Definition obj_get (k : string) (o : list (string * json)) : option json :=
  snd <$> List.find (fun kv => bool_decide (fst kv = k)) o.

(** The session is one that an event of type [eventType] on the object
    [source] is forwarded to: it has not ended, its client has not gone
    away, [source] is its source, and the type is one it listens to. *)
Definition listens (source : nat) (eventType : string) (s : session) : Prop :=
  ended s = false /\ running s = true /\ s_queueEvents s = source
  /\ eventType ∈ eventTypes.

#[global] Instance listens_dec source eventType s :
  Decision (listens source eventType s).
Proof. unfold listens. apply _. Defined.


End Forwarding.

(** ** One session in the count of its queue *)

Module Counting.
Import Events.

(** 1 if the session streams [name] and has not ended, else 0. *)
Definition counts_on (name : string) (s : session) : nat :=
  if decide (ended s = false /\ s_name s = name) then 1 else 0.

(** What the subscriptions look at in a session, and in a source. *)
Definition holding (s : session) : bool * string * nat :=
  (ended s, s_name s, s_queueEvents s).

Definition standing (qe : QueueEvents) : string * nat :=
  (qe_name qe, qe_closes qe).

End Counting.

(** ** The REST router (api.ts) *)

Module Api.
Import Registry.

Inductive response :=
| Json (status : nat) (body : json).

Definition error_body (msg : string) : json := JObj [("error", JStr msg)].

(** A character of [[a-zA-Z0-9_-]]. *)
Definition name_char (c : Ascii.ascii) : bool :=
  let n := Ascii.nat_of_ascii c in
  ((97 <=? n) && (n <=? 122) || (65 <=? n) && (n <=? 90)
   || (48 <=? n) && (n <=? 57) || (n =? 95) || (n =? 45))%nat.

(** [/^[a-zA-Z0-9_-]{1,128}$/.test(name)] *)
Definition VALID_QUEUE_NAME (name : string) : bool :=
  let cs := String.list_ascii_of_string name in
  ((1 <=? length cs) && (length cs <=? 128))%nat && forallb name_char cs.

(** What a handler throws. *)
Inductive thrown :=
| MiddlewareNotApplied
| OfRegistry (e : RegistryError).

(** The engine calls that a route makes on the queue of its name before
    anything else. *)
Inductive queue_call := GetJobCounts | Pause | Resume | Drain | GetWorkers.

(** What a request has come to when its handler returns or first waits
    for the engine: a response, a call awaited on a queue, or a stream
    that has been opened. *)
Inductive outcome :=
| Answer (r : response)
| Call (c : queue_call) (q : Queue)
| PollingStream (s : Polling.session)
| LiveStream (sid : nat).

Inductive result :=
| Threw (e : thrown)
| Done (o : outcome).

(** [c.var.glideMQ] is the registry if the middleware was applied. *)
Definition getRegistry (var : option state) : thrown + state :=
  match var with
  | None => inl MiddlewareNotApplied
  | Some registry => inr registry
  end.

(** [api.onError]: whatever was thrown, the answer is the same. *)
Definition onError (r : result) : outcome :=
  match r with
  | Threw _ => Answer (Json 500 (error_body "Internal server error"))
  | Done o => o
  end.

(** [guardQueue]; [None] is [await next()]. *)
Definition guardQueue (allowedQueues : option (list string)) (name : string)
    (var : option state) : option result :=
  if negb (VALID_QUEUE_NAME name)
  then Some (Done (Answer (Json 400 (error_body "Invalid queue name"))))
  else
    match getRegistry var with
    | inl e => Some (Threw e)
    | inr registry =>
        if match allowedQueues with
           | Some allowed => negb (bool_decide (name ∈ allowed))
           | None => false
           end
           || negb (has name registry)
        then Some (Done (Answer
                           (Json 404 (error_body "Queue not found or not accessible"))))
        else None
    end.

(** The routes [/:name/counts], [/:name/pause], [/:name/resume],
    [/:name/drain] and [/:name/workers], up to the awaited call on the
    queue. *)
Definition queue_route (call : queue_call) (name : string) (var : option state)
  : result * option state :=
  match getRegistry var with
  | inl e => (Threw e, var)
  | inr registry =>
      match get name registry with
      | (inl err, registry') => (Threw (OfRegistry err), Some registry')
      | (inr managed, registry') => (Done (Call call (queue managed)), Some registry')
      end
  end.

(** [createEventsRoute] (events.ts): polling in testing mode, the shared
    subscriptions otherwise. *)
Definition createEventsRoute (name : string) (now : Z) (registry : state)
    (w : Events.world) : result * state * Events.world :=
  if testing registry
  then
    match Polling.createTestingSSE name registry with
    | (inl err, registry') => (Threw (OfRegistry err), registry', w)
    | (inr s, registry') => (Done (PollingStream s), registry', w)
    end
  else
    match getConnection registry with
    | None =>
        (Done (Answer
                 (Json 500 (error_body "Connection config required for SSE events"))),
         registry, w)
    | Some _ =>
        (Done (LiveStream (length (Events.sessions w))), registry,
         Events.createLiveSSE (getConnection registry) (getPrefix registry)
           name now w)
    end.

Inductive route :=
| OnQueue (call : queue_call)
| EventsStream (now : Z).

(** A request to a route under [/:name]: the guard, then the handler,
    with [onError] around both. *)
Definition request (allowedQueues : option (list string)) (r : route)
    (name : string) (var : option state) (w : Events.world)
  : outcome * option state * Events.world :=
  match guardQueue allowedQueues name var with
  | Some res => (onError res, var, w)
  | None =>
      match r with
      | OnQueue call =>
          let '(res, var') := queue_route call name var in
          (onError res, var', w)
      | EventsStream now =>
          match var with
          | None => (onError (Threw MiddlewareNotApplied), var, w)
          | Some registry =>
              let '(res, registry', w') := createEventsRoute name now registry w in
              (onError res, Some registry', w')
          end
      end
  end.

(** [createTestApp] (testing.ts): a registry in testing mode behind the
    router with every queue exposed. *)
Definition createTestApp (queues : list (string * QueueConfig))
  : RegistryError + state :=
  new {| connection := None; queues := queues; prefix := None;
         testing_flag := Some true |}.

(** The guard lets the name through. *)
Definition admitted (allowedQueues : option (list string)) (name : string)
    (registry : state) : Prop :=
  VALID_QUEUE_NAME name = true
  /\ (forall allowed, allowedQueues = Some allowed -> name ∈ allowed)
  /\ has name registry = true.

End Api.

(** ** The values of the end-to-end scenarios *)

Module Scenario.

Definition no_options : Registry.QueueConfig :=
  {| Registry.processor := None; Registry.concurrency := None;
     Registry.workerOpts := None |}.

Definition two_queues : Registry.GlideMQConfig :=
  {| Registry.connection := None;
     Registry.queues := [("emails", no_options); ("reports", no_options)];
     Registry.prefix := None;
     Registry.testing_flag := Some true |}.

Definition two_queues_fresh : Registry.state :=
  {| Registry.config := two_queues; Registry.managed := ∅;
     Registry.closed := false; Registry.next_ref := 0;
     Registry.log := []; Registry.pending := None |}.

Definition localhost : ConnectionOptions :=
  {| addresses := [("localhost", 6379)] |}.

Definition elsewhere : ConnectionOptions :=
  {| addresses := [("valkey.internal", 7000)] |}.

(** Two clients open a stream on "emails", then the engine reports one
    completed job on the shared source. *)
Definition two_clients : list Events.ev :=
  [Events.Open "emails" (Some localhost) None 1000;
   Events.Open "emails" (Some localhost) None 1001;
   Events.Emit 0 "completed" [("jobId", JStr "7")]].


(** The polling session of "emails" as it is opened. *)
Definition polling_emails : Polling.session :=
  {| Polling.name := "emails";
     Polling.queue := {| Registry.q_ref := 0; Registry.q_name := "emails";
                         Registry.q_test := true;
                         Registry.q_connection := None;
                         Registry.q_prefix := None |};
     Polling.eventId := 0;
     Polling.lastCounts := Polling.initial_counts;
     Polling.running := true;
     Polling.written := [];
     Polling.at_phase := Polling.AwaitCounts |}.

Definition three_waiting : Polling.Counts :=
  [("waiting", 3); ("active", 0); ("completed", 0); ("failed", 0);
   ("delayed", 0)].

End Scenario.

(** ** Further values for examples *)

Module Examples.

Definition send_email : Registry.Processor := {| Registry.proc_tag := 1 |}.

(** A registry on a live engine: "emails" has a processor and five
    workers' worth of concurrency, "reports" only produces. *)
Definition live_config : Registry.GlideMQConfig :=
  {| Registry.connection := Some Scenario.localhost;
     Registry.queues :=
       [("emails", {| Registry.processor := Some send_email;
                      Registry.concurrency := Some 5;
                      Registry.workerOpts := None |});
        ("reports", Scenario.no_options)];
     Registry.prefix := Some "glide";
     Registry.testing_flag := None |}.

Definition live_fresh : Registry.state :=
  {| Registry.config := live_config; Registry.managed := ∅;
     Registry.closed := false; Registry.next_ref := 0;
     Registry.log := []; Registry.pending := None |}.

(** The same, with worker options that set a concurrency of their own. *)
Definition tuned_config : Registry.GlideMQConfig :=
  {| Registry.connection := Some Scenario.localhost;
     Registry.queues :=
       [("emails", {| Registry.processor := Some send_email;
                      Registry.concurrency := Some 5;
                      Registry.workerOpts :=
                        Some [("concurrency", JNum 10);
                              ("lockDuration", JNum 30000)] |})];
     Registry.prefix := Some "glide";
     Registry.testing_flag := None |}.

Definition tuned_fresh : Registry.state :=
  {| Registry.config := tuned_config; Registry.managed := ∅;
     Registry.closed := false; Registry.next_ref := 0;
     Registry.log := []; Registry.pending := None |}.

(** Two clients have opened a stream on "emails". *)
Definition two_opened : list Events.ev :=
  [Events.Open "emails" (Some Scenario.localhost) None 1000;
   Events.Open "emails" (Some Scenario.localhost) None 1001].

(** An event of the engine that carries a [queue] field of its own. *)
Definition job_done : list (string * json) :=
  [("jobId", JStr "7"); ("queue", JStr "internal")].

(** The polling session of "emails" after it has reported three waiting
    jobs, at its next read. *)
Definition polling_three : Polling.session :=
  {| Polling.name := "emails";
     Polling.queue := {| Registry.q_ref := 0; Registry.q_name := "emails";
                         Registry.q_test := true;
                         Registry.q_connection := None;
                         Registry.q_prefix := None |};
     Polling.eventId := 1;
     Polling.lastCounts := Scenario.three_waiting;
     Polling.running := true;
     Polling.written :=
       [{| event := "counts";
           data := JObj [("queue", JStr "emails"); ("state", JStr "waiting");
                         ("count", JNum 3); ("prev", JNum 0)];
           id := "0" |}];
     Polling.at_phase := Polling.AwaitCounts |}.

Definition five_waiting : Polling.Counts :=
  [("waiting", 5); ("active", 0); ("completed", 0); ("failed", 0);
   ("delayed", 0)].


End Examples.

(** ** Facts about the registry *)

Module RegistryFacts.
Import Registry Scenario.

(** A name is looked up with success exactly when it is an own property
    of [queues] or one of the inherited ones. *)
Lemma queues_lookup_is_Some name qs :
  is_Some (queues_lookup name qs)
  <-> name ∈ fst <$> qs \/ name ∈ Object_prototype.
Proof.
  unfold queues_lookup.
  destruct (List.find _ qs) as [[k v]|] eqn:Hf.
  - apply find_some in Hf as [Hin Hk]. apply bool_decide_eq_true in Hk.
    simpl in Hk. subst k. split; [intros _; left|by eauto].
    apply list_elem_of_In in Hin.
    by apply (list_elem_of_fmap_2 fst _ (name, v)).
  - pose proof (find_none _ _ Hf) as Hnone.
    assert (name ∉ fst <$> qs) as Hown.
    { intros ([k v] & -> & Hin)%list_elem_of_fmap.
      apply list_elem_of_In, Hnone in Hin.
      by apply bool_decide_eq_false in Hin. }
    case_bool_decide as Hp.
    + split; [by right|by eauto].
    + split; [by intros ?%is_Some_None|by intros [?|?]].
Qed.


Section Facts.

Variable close_rejects : nat -> bool.

Local Abbreviation step := (Registry.step close_rejects).
Local Abbreviation run := (Registry.run close_rejects).
Local Abbreviation closeAll := (Registry.closeAll close_rejects).
Local Abbreviation closeAll_enter := (Registry.closeAll_enter close_rejects).

Lemma get_closed name st :
  closed st = true -> get name st = (inl RegistryClosedError, st).
Proof. intros H. unfold get. by rewrite H. Qed.

Lemma get_open_cases name st :
  closed st = false ->
  (exists mq, managed st !! name = Some mq /\ get name st = (inr mq, st))
  \/ (managed st !! name = None
      /\ queues_lookup name (queues (config st)) = None
      /\ get name st = (inl (QueueNotConfiguredError name), st))
  \/ (exists qc mq st1,
        managed st !! name = None
        /\ queues_lookup name (queues (config st)) = Some qc
        /\ get name st = (inr mq, st1)
        /\ config st1 = config st
        /\ closed st1 = false
        /\ pending st1 = pending st
        /\ managed st1 = <[name := mq]> (managed st)
        /\ log st1 = log st ++ [ECreate name mq]).
Proof.
  intros Hc. unfold get. rewrite Hc.
  destruct (managed st !! name) as [mq|] eqn:Hm; [left; eauto|right].
  destruct (queues_lookup name (queues (config st))) as [qc|] eqn:Hq;
    [right|left; done].
  exists qc.
  destruct (truthy (testing_flag (config st)));
    unfold createTestEntry, createEntry; destruct (processor qc);
    (eexists _, _; repeat split; simpl; try done).
Qed.

Lemma closeAll_open st :
  closed st = false ->
  closeAll st
  = closeAll_resume (allSettled (fst (closeAll_enter st)))
      (snd (closeAll_enter st)).
Proof. intros Hc. unfold Registry.closeAll. by rewrite Hc. Qed.

Lemma closeAll_twice st : closed st = true -> closeAll st = (Fulfilled tt, st).
Proof. intros Hc. unfold Registry.closeAll. by rewrite Hc. Qed.

Lemma closeAll_closed st : closed (snd (closeAll st)) = true.
Proof.
  unfold closeAll. destruct (closed st) eqn:Hc; [done|]. reflexivity.
Qed.

Lemma closeAll_fulfilled st : fst (closeAll st) = Fulfilled tt.
Proof. unfold closeAll. by destruct (closed st). Qed.

Lemma step_closed st o : closed st = true -> closed (step st o) = true.
Proof.
  intros Hc. destruct o; simpl; try done.
  - by rewrite get_closed.
  - apply closeAll_closed.
  - by rewrite Hc.
  - by destruct (pending st).
Qed.

Lemma run_closed ops st : closed st = true -> closed (run ops st) = true.
Proof.
  revert st. induction ops as [|o ops IH]; intros st Hc; [done|].
  simpl. apply IH. by apply step_closed.
Qed.

Lemma step_config st o : config (step st o) = config st.
Proof.
  destruct o; simpl; try done.
  - destruct (closed st) eqn:Hc; [by rewrite get_closed|].
    destruct (get_open_cases name st Hc)
      as [(mq & _ & ->)|[(_ & _ & ->)|(qc & mq & st1 & _ & _ & -> & H & _)]];
      done.
  - unfold closeAll. by destruct (closed st).
  - by destruct (closed st).
  - by destruct (pending st).
Qed.

Lemma run_config ops st : config (run ops st) = config st.
Proof.
  revert st. induction ops as [|o ops IH]; intros st; [done|].
  simpl. by rewrite IH, step_config.
Qed.

Lemma creations_log_create st n name mq :
  creations n (set_log (log st ++ [ECreate name mq]) st)
  = (creations n st + (if decide (name = n) then 1 else 0))%nat.
Proof.
  unfold creations, created_names. simpl.
  rewrite omap_app, filter_app, length_app. simpl.
  rewrite filter_cons. by destruct (decide (name = n)).
Qed.

Lemma created_names_closes (l : list effect) :
  Forall (fun e => match e with ECreate _ _ => False | _ => True end) l ->
  created_names l = [].
Proof.
  induction 1 as [|e l He _ IH]; [done|].
  unfold created_names in *. simpl. destruct e; [done|..]; exact IH.
Qed.

Lemma close_entry_no_create mq :
  Forall (fun e => match e with ECreate _ _ => False | _ => True end)
         (fst <$> close_entry close_rejects mq).
Proof.
  unfold close_entry. destruct (worker mq); simpl; repeat constructor.
Qed.

Lemma closeAll_enter_creations st n :
  creations n (snd (closeAll_enter st)) = creations n st.
Proof.
  unfold creations, Registry.closeAll_enter. simpl.
  unfold created_names at 1. rewrite omap_app.
  fold (created_names (log st)).
  match goal with |- context [omap ?f ?l] =>
    change (omap f l) with (created_names l);
    rewrite (created_names_closes l) end.
  - by rewrite app_nil_r.
  - induction (snd <$> managed_entries st) as [|mq l IH]; simpl.
    + constructor.
    + rewrite fmap_app. apply Forall_app. split; [|exact IH].
      apply close_entry_no_create.
Qed.

Lemma inv_new cfg st : new cfg = inr st -> inv st.
Proof.
  unfold new. case_match; [done|]. intros [= <-].
  split; simpl; try done.
  - unfold creations. simpl. lia.
Qed.

Lemma inv_get name st : inv st -> inv (snd (get name st)).
Proof.
  intros I. destruct (closed st) eqn:Hc; [by rewrite get_closed|].
  destruct (get_open_cases name st Hc)
    as [(mq & _ & ->)|[(_ & _ & ->)
       |(qc & mq & st1 & Hm & Hq & -> & Hcfg & Hc1 & Hp & Hm1 & Hl)]];
    [done..|]. simpl.
  assert (forall n, creations n st1
            = (creations n st + (if decide (name = n) then 1 else 0))%nat)
    as Hcr.
  { intros n. rewrite <- creations_log_create with (mq := mq).
    unfold creations. by rewrite Hl. }
  split.
  - intros n mq'. rewrite Hm1, Hcfg. intros H.
    apply lookup_insert_Some in H as [[<- _]|[_ H]]; [by rewrite Hq|].
    by eapply inv_managed_configured.
  - rewrite Hp. intros H. apply (inv_pending_closed _ I) in H. congruence.
  - congruence.
  - intros n. rewrite Hcr. case_decide as Hn.
    + subst n. rewrite (inv_created_fresh _ I name Hc Hm). lia.
    + pose proof (inv_created_once _ I n). lia.
  - intros n mq'. rewrite Hm1, Hcr. intros H.
    apply lookup_insert_Some in H as [[<- _]|[Hn H]].
    + rewrite decide_True by done.
      rewrite (inv_created_fresh _ I name Hc Hm). lia.
    + rewrite decide_False by done.
      rewrite (inv_created_managed _ I n mq' H). lia.
  - intros n _. rewrite Hm1, Hcr. intros H.
    apply lookup_insert_None in H as [H Hn].
    rewrite decide_False by done.
    rewrite (inv_created_fresh _ I n Hc H). lia.
Qed.

Lemma inv_closeAll_enter st :
  closed st = false -> inv st -> inv (snd (closeAll_enter st)).
Proof.
  intros Hc I. split.
  - apply (inv_managed_configured _ I).
  - done.
  - done.
  - intros n. rewrite closeAll_enter_creations. apply (inv_created_once _ I).
  - intros n mq H. rewrite closeAll_enter_creations.
    by apply (inv_created_managed _ I n mq).
  - done.
Qed.

Lemma inv_settle st closeOps :
  inv st -> closed st = true ->
  inv (snd (closeAll_resume (allSettled closeOps) st)).
Proof.
  intros I Hc. split; simpl; try done.
  - intros n. apply (inv_created_once _ I).
  - congruence.
Qed.

Lemma inv_step st o : inv st -> inv (step st o).
Proof.
  intros I. destruct o; simpl; try done.
  - by apply inv_get.
  - destruct (closed st) eqn:Hc; [by rewrite closeAll_twice|].
    rewrite closeAll_open by done.
    apply inv_settle; [|done]. by apply inv_closeAll_enter.
  - destruct (closed st) eqn:Hc; [done|]. by apply inv_closeAll_enter.
  - destruct (pending st) as [closeOps|] eqn:Hp; [|done].
    apply (inv_settle st closeOps); [done|].
    apply (inv_pending_closed _ I). by rewrite Hp.
Qed.

Lemma inv_run ops st : inv st -> inv (run ops st).
Proof.
  revert st. induction ops as [|o ops IH]; intros st I; [done|].
  simpl. apply IH. by apply inv_step.
Qed.

(** A handle stays the one in the map for as long as the registry is
    open. *)
Lemma step_keeps_handle st o name mq :
  inv st ->
  closed st = true \/ managed st !! name = Some mq ->
  closed (step st o) = true \/ managed (step st o) !! name = Some mq.
Proof.
  intros I [Hc|Hm]; [left; by apply step_closed|].
  destruct o; simpl; auto.
  - destruct (closed st) eqn:Hc; [left; by rewrite get_closed|].
    destruct (get_open_cases name0 st Hc)
      as [(mq' & _ & ->)|[(_ & _ & ->)
         |(qc & mq' & st1 & Hm0 & _ & -> & _ & _ & _ & Hm1 & _)]]; auto.
    right. simpl. rewrite Hm1. rewrite lookup_insert_ne; [done|].
    intros ->. congruence.
  - left. apply closeAll_closed.
  - destruct (closed st); auto.
  - destruct (pending st) eqn:Hp; auto.
    left. simpl. apply (inv_pending_closed _ I). by rewrite Hp.
Qed.

Lemma run_keeps_handle ops st name mq :
  inv st ->
  closed st = true \/ managed st !! name = Some mq ->
  closed (run ops st) = true \/ managed (run ops st) !! name = Some mq.
Proof.
  revert st. induction ops as [|o ops IH]; intros st I H; [done|].
  simpl. apply IH; [by apply inv_step|]. by apply step_keeps_handle.
Qed.

Lemma get_ok_managed name st mq st1 :
  get name st = (inr mq, st1) ->
  closed st = false /\ closed st1 = false /\ managed st1 !! name = Some mq.
Proof.
  intros H. destruct (closed st) eqn:Hc; [by rewrite get_closed in H|].
  split; [done|].
  destruct (get_open_cases name st Hc)
    as [(mq' & Hm & E)|[(_ & _ & E)
       |(qc & mq' & st' & _ & _ & E & _ & Hc1 & _ & Hm1 & _)]];
    rewrite E in H; simplify_eq; [done|].
  split; [done|]. rewrite Hm1. apply lookup_insert_eq.
Qed.




Lemma new_config cfg st : new cfg = inr st -> config st = cfg.
Proof. unfold new. case_match; [done|]. by intros [= <-]. Qed.

(** C1.  In a registry built from [cfg], a configured name (any name that
    [queues[name]] finds) looked up twice while the registry is open
    gives the same handle both times, whatever calls were made before the
    first and between the two lookups (lookups of other names included);
    the handle was built once, and no history builds a handle for that
    name more than once. *)
Theorem get_returns_same_handle cfg st0 ops1 ops2 name :
  new cfg = inr st0 ->
  is_Some (queues_lookup name (queues cfg)) ->
  closed (run ops1 st0) = false ->
  closed (run ops2 (snd (get name (run ops1 st0)))) = false ->
  exists h,
    fst (get name (run ops1 st0)) = inr h
    /\ fst (get name (run ops2 (snd (get name (run ops1 st0))))) = inr h
    /\ creations name
         (snd (get name (run ops2 (snd (get name (run ops1 st0)))))) = 1%nat
    /\ forall ops, (creations name (run ops st0) <= 1)%nat.
Proof.
  intros Hnew Hcfg Hc1 Hc2.
  pose proof (inv_run ops1 _ (inv_new _ _ Hnew)) as I1.
  assert (exists h st1, get name (run ops1 st0) = (inr h, st1)) as (h & st1 & E1).
  { destruct (get_open_cases name _ Hc1)
      as [(mq & _ & E)|[(_ & Hq & _)|(qc & mq & st1 & _ & _ & E & _)]]; eauto.
    rewrite run_config, (new_config _ _ Hnew) in Hq.
    rewrite Hq in Hcfg. by destruct Hcfg. }
  pose proof (inv_get name _ I1) as I1'.
  rewrite E1 in *. simpl in *.
  destruct (get_ok_managed _ _ _ _ E1) as (_ & Hc1' & Hm1).
  destruct (run_keeps_handle ops2 st1 name h I1' (or_intror Hm1))
    as [Hc|Hm2]; [congruence|].
  pose proof (inv_run ops2 _ I1') as I2.
  assert (get name (run ops2 st1) = (inr h, run ops2 st1)) as E2.
  { unfold get. by rewrite Hc2, Hm2. }
  exists h. rewrite E2. simpl. repeat split.
  - by apply (inv_created_managed _ I2 name h).
  - intros ops. apply inv_created_once, inv_run. by eapply inv_new.
Qed.

(** C3.  [closeAll] leaves the registry closed; a closed registry stays
    closed under every sequence of calls, and every [get] on it, for
    every name, fails with the closed-registry error and changes
    nothing. *)
Theorem closed_registry_rejects_get st ops name :
  closed (snd (closeAll st)) = true
  /\ (closed st = true ->
      closed (run ops st) = true
      /\ get name (run ops st) = (inl RegistryClosedError, run ops st)).
Proof.
  split; [apply closeAll_closed|].
  intros Hc. pose proof (run_closed ops st Hc) as Hc'.
  split; [done|]. by apply get_closed.
Qed.


(** C5, as amended.  In every state the registry can reach, [closeAll]
    fulfils, whichever close promises reject, and leaves the registry
    closed.  With no other [closeAll] in flight the map of managed queues
    is empty when it completes, and a second [closeAll] fulfils as well
    and leaves the state, the log of close calls included, as it was.  A
    call made while another is in flight returns at once without a close
    call and without clearing the map: the map is empty only when the one
    in flight completes. *)
Theorem closeAll_idempotent cfg st0 ops :
  new cfg = inr st0 ->
  fst (closeAll (run ops st0)) = Fulfilled tt
  /\ closed (snd (closeAll (run ops st0))) = true
  /\ (pending (run ops st0) = None ->
      managed (snd (closeAll (run ops st0))) = ∅)
  /\ closeAll (snd (closeAll (run ops st0)))
     = (Fulfilled tt, snd (closeAll (run ops st0)))
  /\ log (snd (closeAll (snd (closeAll (run ops st0)))))
     = log (snd (closeAll (run ops st0)))
  /\ (is_Some (pending (run ops st0)) ->
      closeAll (run ops st0) = (Fulfilled tt, run ops st0)
      /\ managed (step (run ops st0) CloseAllSettle) = ∅).
Proof.
  intros Hnew.
  pose proof (inv_run ops _ (inv_new _ _ Hnew)) as I.
  pose proof (closeAll_closed (run ops st0)) as Hc.
  split; [apply closeAll_fulfilled|]. split; [done|].
  rewrite (closeAll_twice _ Hc). repeat split.
  - intros Hp. destruct (closed (run ops st0)) eqn:Hc0.
    + rewrite closeAll_twice by done. by apply (inv_closed_cleared _ I).
    + by rewrite closeAll_open.
  - apply closeAll_twice. by apply (inv_pending_closed _ I).
  - destruct H as [closeOps Hp]. simpl. by rewrite Hp.
Qed.

End Facts.

Lemma get_returns_same_handle_witness :
  exists h,
    fst (get "emails" two_queues_fresh) = inr h
    /\ fst (get "emails"
             (run (fun _ => false) [Get "reports"; Has "emails"]
                (snd (get "emails" two_queues_fresh)))) = inr h
    /\ creations "emails"
         (snd (get "emails"
                 (run (fun _ => false) [Get "reports"; Has "emails"]
                    (snd (get "emails" two_queues_fresh))))) = 1%nat
    /\ forall ops,
         (creations "emails" (run (fun _ => false) ops two_queues_fresh) <= 1)%nat.
Proof.
  apply (get_returns_same_handle (fun _ => false) two_queues two_queues_fresh
           [] [Get "reports"; Has "emails"] "emails").
  - reflexivity.
  - vm_compute. eauto.
  - reflexivity.
  - vm_compute. reflexivity.
Defined.

Lemma closed_registry_rejects_get_witness :
  closed (run (fun _ => true) [Get "emails"]
            (snd (closeAll (fun _ => true) two_queues_fresh))) = true
  /\ get "emails" (run (fun _ => true) [Get "emails"]
                     (snd (closeAll (fun _ => true) two_queues_fresh)))
     = (inl RegistryClosedError,
        run (fun _ => true) [Get "emails"]
          (snd (closeAll (fun _ => true) two_queues_fresh))).
Proof.
  apply (closed_registry_rejects_get (fun _ => true)
           (snd (closeAll (fun _ => true) two_queues_fresh))
           [Get "emails"] "emails").
  vm_compute. reflexivity.
Defined.



(** C5 as stated fails: a [closeAll] called while another is in flight
    completes, fulfilled, with the managed queue of "emails" still in the
    map. *)
Lemma closeAll_overlapping_counterexample :
  new two_queues = inr two_queues_fresh
  /\ fst (closeAll (fun _ => false)
            (run (fun _ => false) [Get "emails"; CloseAllCall] two_queues_fresh))
     = Fulfilled tt
  /\ is_Some (managed
                (snd (closeAll (fun _ => false)
                        (run (fun _ => false) [Get "emails"; CloseAllCall]
                           two_queues_fresh))) !! "emails")
  /\ managed
       (snd (closeAll (fun _ => false)
               (run (fun _ => false) [Get "emails"; CloseAllCall]
                  two_queues_fresh))) <> ∅.
Proof.
  split; [reflexivity|]. split; [vm_compute; reflexivity|].
  assert (is_Some (managed
                     (snd (closeAll (fun _ => false)
                             (run (fun _ => false) [Get "emails"; CloseAllCall]
                                two_queues_fresh))) !! "emails")) as Hm
    by (eexists; vm_compute; reflexivity).
  split; [exact Hm|]. intros He. rewrite He, lookup_empty in Hm.
  by apply is_Some_None in Hm.
Qed.

Lemma closeAll_idempotent_witness :
  new two_queues = inr two_queues_fresh
  /\ closeAll (fun _ => true)
       (run (fun _ => true) [Get "emails"; Get "reports"] two_queues_fresh)
     = (Fulfilled tt,
        {| config := two_queues; managed := ∅; closed := true;
           next_ref := 4;
           log := log (run (fun _ => true) [Get "emails"; Get "reports"]
                         two_queues_fresh)
                  ++ [ECloseQueue 0; ECloseQueue 2];
           pending := None |})
  /\ managed
       (snd (closeAll (fun _ => true)
               (run (fun _ => true) [Get "emails"; Get "reports"]
                  two_queues_fresh))) = ∅.
Proof.
  split; [reflexivity|]. split; [vm_compute; reflexivity|].
  apply (closeAll_idempotent (fun _ => true) two_queues two_queues_fresh
           [Get "emails"; Get "reports"]); reflexivity.
Defined.

End RegistryFacts.

(** ** Facts about the shared subscriptions *)

Module EventsFacts.
Import Events.

Lemma acquire_new name c p w :
  subscriptions w !! name = None ->
  acquireQueueEvents name c p w
  = (length (heap w),
     set_subscriptions
       (<[name := {| queueEvents := length (heap w); refCount := 1 |}]>
          (subscriptions w))
       (set_heap (heap w ++ [{| qe_name := name; qe_connection := c;
                                qe_prefix := p; qe_listeners := [];
                                qe_closes := 0 |}]) w)).
Proof. intros H. unfold acquireQueueEvents. by rewrite H. Qed.

Lemma acquire_existing name c p w sub :
  subscriptions w !! name = Some sub ->
  acquireQueueEvents name c p w
  = (queueEvents sub,
     set_subscriptions
       (<[name := {| queueEvents := queueEvents sub;
                     refCount := refCount sub + 1 |}]> (subscriptions w)) w).
Proof. intros H. unfold acquireQueueEvents. by rewrite H. Qed.

Lemma release_missing name w :
  subscriptions w !! name = None -> releaseQueueEvents name w = w.
Proof. intros H. unfold releaseQueueEvents. by rewrite H. Qed.

Lemma release_last name w sub :
  subscriptions w !! name = Some sub -> refCount sub <= 1 ->
  releaseQueueEvents name w
  = set_subscriptions (delete name (subscriptions w))
      (on_source (queueEvents sub) close w).
Proof.
  intros H Hrc. unfold releaseQueueEvents. rewrite H.
  by rewrite (proj2 (Z.leb_le _ _)) by lia.
Qed.

Lemma release_shared name w sub :
  subscriptions w !! name = Some sub -> 1 < refCount sub ->
  releaseQueueEvents name w
  = set_subscriptions
      (<[name := {| queueEvents := queueEvents sub;
                    refCount := refCount sub - 1 |}]> (subscriptions w)) w.
Proof.
  intros H Hrc. unfold releaseQueueEvents. rewrite H.
  by rewrite (proj2 (Z.leb_gt _ _)) by lia.
Qed.

Lemma acquire_refcounts name c p w :
  refcounts_positive w ->
  refcounts_positive (snd (acquireQueueEvents name c p w)).
Proof.
  intros Hw n sub. unfold acquireQueueEvents.
  destruct (subscriptions w !! name) as [e|] eqn:He; simpl;
    intros [[<- <-]|[_ H]]%lookup_insert_Some; simpl; eauto; try lia.
  specialize (Hw _ _ He). lia.
Qed.

Lemma release_refcounts name w :
  refcounts_positive w -> refcounts_positive (releaseQueueEvents name w).
Proof.
  intros Hw n sub. unfold releaseQueueEvents.
  destruct (subscriptions w !! name) as [e|] eqn:He; [|by apply Hw].
  destruct (refCount e - 1 <=? 0) eqn:Hrc; simpl.
  - intros [_ H]%lookup_delete_Some. by apply (Hw n).
  - apply Z.leb_gt in Hrc.
    intros [[<- <-]|[_ H]]%lookup_insert_Some; simpl; [lia|by apply (Hw n)].
Qed.

Lemma mux_run_refcounts ops w :
  refcounts_positive w -> refcounts_positive (mux_run ops w).
Proof.
  revert w. induction ops as [|o ops IH]; intros w Hw; [done|].
  simpl. apply IH. destruct o; simpl.
  - by apply acquire_refcounts.
  - by apply release_refcounts.
Qed.

Lemma empty_refcounts : refcounts_positive empty_world.
Proof. intros n sub. simpl. by rewrite lookup_empty. Qed.

(** C2.  Where [name] has no entry, two acquires return the same source
    and leave the count at 2; the first release leaves the entry with
    count 1 and the source open, the second closes the source once and
    removes the entry, and a third changes nothing.  In every history of
    acquires and releases each entry of the map has a count of at least
    1. *)
Theorem acquire_release_refcount w name c1 p1 c2 p2 :
  subscriptions w !! name = None ->
  let a1 := acquireQueueEvents name c1 p1 w in
  let a2 := acquireQueueEvents name c2 p2 (snd a1) in
  let w3 := releaseQueueEvents name (snd a2) in
  let w4 := releaseQueueEvents name w3 in
  fst a2 = fst a1
  /\ subscriptions (snd a2) !! name
     = Some {| queueEvents := fst a1; refCount := 2 |}
  /\ qe_closes <$> heap (snd a2) !! fst a1 = Some 0%nat
  /\ subscriptions w3 !! name = Some {| queueEvents := fst a1; refCount := 1 |}
  /\ qe_closes <$> heap w3 !! fst a1 = Some 0%nat
  /\ subscriptions w4 !! name = None
  /\ qe_closes <$> heap w4 !! fst a1 = Some 1%nat
  /\ releaseQueueEvents name w4 = w4
  /\ forall ops n sub,
       subscriptions (mux_run ops empty_world) !! n = Some sub ->
       1 <= refCount sub.
Proof.
  intros Hnone. cbv zeta.
  rewrite (acquire_new _ c1 p1 _ Hnone). cbn [fst snd].
  set (r := length (heap w)).
  erewrite (acquire_existing name c2 p2); [|apply lookup_insert_eq].
  cbn [fst snd queueEvents refCount subscriptions set_subscriptions set_heap heap].
  rewrite insert_insert_eq.
  erewrite (release_shared name); [|apply lookup_insert_eq|simpl; lia].
  cbn [fst snd queueEvents refCount subscriptions set_subscriptions set_heap heap].
  rewrite insert_insert_eq.
  erewrite (release_last name); [|apply lookup_insert_eq|simpl; lia].
  cbn [fst snd queueEvents refCount subscriptions set_subscriptions set_heap
       heap on_source].
  rewrite delete_insert_eq.
  assert ((heap w ++ [{| qe_name := name; qe_connection := c1;
                         qe_prefix := p1; qe_listeners := [];
                         qe_closes := 0 |}]) !! r
          = Some {| qe_name := name; qe_connection := c1; qe_prefix := p1;
                    qe_listeners := []; qe_closes := 0 |}) as Hr.
  { subst r. by rewrite list_lookup_middle. }
  repeat split.
  - apply lookup_insert_eq.
  - by rewrite Hr.
  - apply lookup_insert_eq.
  - by rewrite Hr.
  - apply lookup_delete_eq.
  - by rewrite list_lookup_alter_eq, Hr.
  - apply release_missing. simpl. apply lookup_delete_eq.
  - intros ops. apply mux_run_refcounts, empty_refcounts.
Qed.

(** C10.  When [name] has an entry, an acquire returns the source of that
    entry for every connection and prefix it is given; no source is
    built, the count alone goes up.  After a first acquire the second one,
    with whatever options, returns the source built with the options of
    the first. *)
Theorem acquire_existing_ignores_options w name c p :
  (forall sub,
     subscriptions w !! name = Some sub ->
     fst (acquireQueueEvents name c p w) = queueEvents sub
     /\ heap (snd (acquireQueueEvents name c p w)) = heap w
     /\ subscriptions (snd (acquireQueueEvents name c p w))
        = <[name := {| queueEvents := queueEvents sub;
                       refCount := refCount sub + 1 |}]> (subscriptions w))
  /\ (forall c0 p0,
        subscriptions w !! name = None ->
        let a1 := acquireQueueEvents name c0 p0 w in
        let a2 := acquireQueueEvents name c p (snd a1) in
        fst a2 = fst a1
        /\ heap (snd a2) = heap (snd a1)
        /\ heap (snd a2) !! fst a2
           = Some {| qe_name := name; qe_connection := c0; qe_prefix := p0;
                     qe_listeners := []; qe_closes := 0 |}).
Proof.
  split.
  - intros sub H. by rewrite (acquire_existing _ _ _ _ _ H).
  - intros c0 p0 H. cbv zeta.
    rewrite (acquire_new _ c0 p0 _ H). cbn [fst snd].
    erewrite (acquire_existing name c p); [|apply lookup_insert_eq].
    cbn [fst snd queueEvents heap set_subscriptions set_heap].
    repeat split. by rewrite list_lookup_middle.
Qed.

(** *** Message identifiers of the live sessions *)

Lemma numbered_nil : numbered 0 [].
Proof. by split. Qed.

Lemma numbered_snoc n l ev payload :
  numbered n l ->
  numbered (S n) (l ++ [{| event := ev; data := payload; id := pretty n |}]).
Proof.
  intros [-> Hids]. split.
  - rewrite length_app. simpl. lia.
  - rewrite fmap_app, length_app, Nat.add_1_r, seq_S, fmap_app, Hids. done.
Qed.

Lemma writeSSE_numbered ev payload : keeps_numbering (writeSSE ev payload).
Proof. intros s H. by apply numbered_snoc. Qed.

Lemma on_session_numbered sid f w :
  keeps_numbering f -> all_numbered w -> all_numbered (on_session sid f w).
Proof. intros Hf Hw. apply Forall_alter; [done|]. intros s _. apply Hf. Qed.

Lemma sessions_release name w :
  sessions (releaseQueueEvents name w) = sessions w.
Proof.
  unfold releaseQueueEvents. destruct (subscriptions w !! name); [|done].
  by case_match.
Qed.

Lemma sessions_acquire name c p w :
  sessions (snd (acquireQueueEvents name c p w)) = sessions w.
Proof. unfold acquireQueueEvents. by destruct (subscriptions w !! name). Qed.

Lemma sessions_detach q (ls : list Listener) w :
  sessions (foldl (fun w l => on_source q (removeListener (fst l) (snd l)) w) w ls)
  = sessions w.
Proof. revert w. induction ls as [|l ls IH]; intros w; [done|]. simpl. by rewrite IH. Qed.

Lemma cleanup_numbered sid thrown w :
  all_numbered w -> all_numbered (cleanup sid thrown w).
Proof.
  intros Hw. unfold cleanup. destruct (sessions w !! sid) as [s|]; [|done].
  apply on_session_numbered; [by intros s'|].
  unfold all_numbered. by rewrite sessions_release, sessions_detach.
Qed.

Lemma loop_head_numbered sid now w :
  all_numbered w -> all_numbered (loop_head sid now w).
Proof.
  intros Hw. unfold loop_head. destruct (sessions w !! sid) as [s|]; [|done].
  destruct (running s); [|by apply cleanup_numbered].
  apply on_session_numbered; [|done].
  intros s' H. by apply (writeSSE_numbered "heartbeat").
Qed.

Lemma handler_numbered h args w :
  all_numbered w -> all_numbered (handler h args w).
Proof.
  intros Hw. apply on_session_numbered; [|done].
  intros s H. destruct (running s); [|done]. by apply writeSSE_numbered.
Qed.

Lemma emit_numbered source eventType args w :
  all_numbered w -> all_numbered (emit source eventType args w).
Proof.
  unfold emit. destruct (heap w !! source) as [qe|]; [|done].
  generalize (qe_listeners qe). intros ls. revert w.
  induction ls as [|l ls IH]; intros w Hw; [done|].
  simpl. apply IH. case_decide; [by apply handler_numbered|done].
Qed.

Lemma attach_numbered sid q tys w :
  all_numbered w ->
  all_numbered (foldl (fun w eventType => attach sid q eventType w) w tys).
Proof.
  revert w. induction tys as [|ty tys IH]; intros w Hw; [done|].
  simpl. apply IH. unfold attach.
  apply on_session_numbered; [by intros s'|done].
Qed.

Lemma createLiveSSE_numbered connection prefix name now w :
  all_numbered w -> all_numbered (createLiveSSE connection prefix name now w).
Proof.
  intros Hw. unfold createLiveSSE. destruct connection as [conn|]; [|done].
  destruct (acquireQueueEvents name conn prefix w) as [q w1] eqn:Ha.
  apply loop_head_numbered, attach_numbered.
  unfold all_numbered. simpl. apply Forall_app. split.
  - replace (sessions w1) with (sessions w); [done|].
    by rewrite <- (sessions_acquire name conn prefix w), Ha.
  - repeat constructor.
Qed.

Lemma step_numbered w e : all_numbered w -> all_numbered (step w e).
Proof.
  intros Hw. destruct e; simpl.
  - by apply createLiveSSE_numbered.
  - by apply emit_numbered.
  - apply on_session_numbered; [by intros s'|done].
  - destruct (at_phase <$> sessions w !! sid) as [[]|]; try done.
    destruct ok; [|by apply cleanup_numbered].
    apply on_session_numbered; [by intros s'|done].
  - destruct (at_phase <$> sessions w !! sid) as [[]|]; try done.
    destruct ok; [|by apply cleanup_numbered].
    apply loop_head_numbered. apply on_session_numbered; [by intros s'|done].
Qed.

Lemma run_numbered evs w : all_numbered w -> all_numbered (run evs w).
Proof.
  revert w. induction evs as [|e evs IH]; intros w Hw; [done|].
  simpl. apply IH. by apply step_numbered.
Qed.

Lemma remove_last_nodup x l :
  NoDup l -> remove_last x l = filter (fun y => y <> x) l.
Proof.
  induction 1 as [|y l Hy Hl IH]; [done|]. simpl.
  rewrite filter_cons. destruct (decide (x ∈ l)) as [Hx|Hx].
  - rewrite decide_True by (intros ->; done). by rewrite IH.
  - assert (filter (fun y => y <> x) l = l) as Hf.
    { clear -Hx. induction l as [|z l IH]; [done|].
      rewrite filter_cons. apply not_elem_of_cons in Hx as [Hz Hx].
      rewrite decide_True by done. by rewrite IH. }
    destruct (decide (y = x)) as [->|Hne].
    + by rewrite decide_False by (intros H; by apply H).
    + by rewrite decide_True, Hf by done.
Qed.

Lemma remove_all_nodup ls l :
  NoDup l -> remove_all ls l = filter (fun y => y ∉ ls) l.
Proof.
  revert l. induction ls as [|x ls IH]; intros l Hl.
  - simpl. induction l as [|z l IHl]; [done|].
    rewrite filter_cons, decide_True by apply not_elem_of_nil.
    f_equal. apply IHl. by apply NoDup_cons in Hl as [_ ?].
  - unfold remove_all in *. simpl. rewrite remove_last_nodup by done.
    rewrite IH by by apply NoDup_filter.
    rewrite list_filter_filter. apply list_filter_iff.
    intros y. rewrite not_elem_of_cons. tauto.
Qed.

Lemma world_eta w : set_heap (heap w) w = w.
Proof. by destruct w. Qed.

Lemma detach_all q ls w :
  foldl (fun w (l : Listener) =>
           on_source q (removeListener (fst l) (snd l)) w) w ls
  = on_source q (fun qe => set_listeners (remove_all ls (qe_listeners qe)) qe) w.
Proof.
  revert w. induction ls as [|[ty h] ls IH]; intros w.
  - simpl. unfold on_source. rewrite list_alter_id; [by rewrite world_eta|].
    by intros [].
  - simpl. rewrite IH. unfold on_source. simpl.
    rewrite list_alter_alter_eq. done.
Qed.

Lemma attach_all sid q tys w :
  foldl (fun w eventType => attach sid q eventType w) w tys
  = on_session sid
      (push_listeners
         ((fun ty => (ty, {| h_session := sid; h_event := ty |})) <$> tys))
      (on_source q
         (fun qe =>
            set_listeners
              (qe_listeners qe
               ++ ((fun ty => (ty, {| h_session := sid; h_event := ty |})) <$> tys))
              qe) w).
Proof.
  revert w. induction tys as [|ty tys IH]; intros w.
  - simpl. unfold on_session, on_source.
    rewrite !list_alter_id; [by destruct w|..].
    + intros []. unfold set_listeners. simpl. by rewrite app_nil_r.
    + intros []. unfold push_listeners. simpl. by rewrite app_nil_r.
  - simpl. rewrite IH.
    unfold attach, on_session, on_source, set_sessions, set_heap. simpl.
    rewrite !list_alter_alter_eq.
    f_equal; (apply list_alter_ext; [|done]); intros x _;
      unfold set_listeners, on, push_listeners, push_listener; simpl;
      by rewrite <- app_assoc.
Qed.

Lemma session_listeners_owner sid l :
  l ∈ session_listeners sid -> h_session (snd l) = sid.
Proof.
  unfold session_listeners. intros (ty & -> & _)%list_elem_of_fmap. done.
Qed.

Lemma session_listeners_nodup sid : NoDup (session_listeners sid).
Proof.
  unfold session_listeners. apply NoDup_fmap_2_strong.
  - intros ty1 ty2 _ _ H. by simplify_eq.
  - unfold eventTypes. apply (bool_decide_unpack _). by vm_compute.
Qed.

Lemma lifecycle_eq s s' :
  lifecycle s' = lifecycle s ->
  listeners s' = listeners s /\ s_queueEvents s' = s_queueEvents s
  /\ ended s' = ended s /\ releases s' = releases s.
Proof. unfold lifecycle. by intros [= -> -> -> ->]. Qed.

Lemma wf_same_view w w' :
  (forall j, lifecycle <$> sessions w' !! j = lifecycle <$> sessions w !! j) ->
  (forall o ls, listeners_at w o = Some ls -> listeners_at w' o = Some ls) ->
  (forall o ls, listeners_at w' o = Some ls ->
                listeners_at w o = Some ls \/ ls = []) ->
  (forall n sub, subscriptions w' !! n = Some sub ->
                 (queueEvents sub < length (heap w'))%nat) ->
  wf w -> wf w'.
Proof.
  intros Hs H1 H2 Hsub W.
  assert (forall j s', sessions w' !! j = Some s' ->
            exists s, sessions w !! j = Some s /\ lifecycle s' = lifecycle s)
    as Hback.
  { intros j s' E. specialize (Hs j). rewrite E in Hs.
    destruct (sessions w !! j) as [s|]; [|done]. exists s.
    change (Some (lifecycle s') = Some (lifecycle s)) in Hs.
    split; [done|congruence]. }
  assert (forall j s, sessions w !! j = Some s ->
            exists s', sessions w' !! j = Some s' /\ lifecycle s' = lifecycle s)
    as Hforth.
  { intros j s E. specialize (Hs j). rewrite E in Hs.
    destruct (sessions w' !! j) as [s'|]; [|done]. exists s'.
    change (Some (lifecycle s') = Some (lifecycle s)) in Hs.
    split; [done|congruence]. }
  split.
  - intros j s' E'. destruct (Hback _ _ E') as (s & E & L).
    apply lifecycle_eq in L as (_ & _ & He & Hr). rewrite He, Hr.
    by apply (wf_releases _ W j).
  - intros j s' E'. destruct (Hback _ _ E') as (s & E & L).
    apply lifecycle_eq in L as (Hl & _). rewrite Hl.
    by apply (wf_own _ W j).
  - intros j s' E' Hend. destruct (Hback _ _ E') as (s & E & L).
    apply lifecycle_eq in L as (Hl & Hq & He & _).
    rewrite He in Hend. rewrite Hl, Hq.
    destruct (wf_attached _ W j s E Hend) as (ls & Hls & Hsub').
    exists ls. split; [by apply H1|done].
  - intros o ls l Hls Hl. destruct (H2 _ _ Hls) as [Hls'| ->];
      [|by apply elem_of_nil in Hl].
    destruct (wf_listener _ W o ls l Hls' Hl) as (s & E & Hend & Hq & Hin).
    destruct (Hforth _ _ E) as (s' & E' & L).
    apply lifecycle_eq in L as (Hl' & Hq' & He & _).
    exists s'. rewrite Hl', Hq', He. done.
  - intros o ls Hls. destruct (H2 _ _ Hls) as [Hls'| ->];
      [by apply (wf_nodup _ W o)|constructor].
  - done.
Qed.

Lemma wf_empty : wf empty_world.
Proof. split; intros *; simpl; done. Qed.

(** A change of one session that the invariant does not see. *)
Lemma wf_on_session sid f w :
  (forall s, sessions w !! sid = Some s -> lifecycle (f s) = lifecycle s) ->
  wf w -> wf (on_session sid f w).
Proof.
  intros Hf W. apply (wf_same_view w); [| | |exact (wf_subscribed _ W)|done].
  - intros j. simpl. rewrite list_lookup_alter. case_decide as Hj; [|done].
    subst j. destruct (sessions w !! sid) as [s|] eqn:E; [|done].
    simpl. f_equal. by apply Hf.
  - by intros o ls.
  - intros o ls. by left.
Qed.

Lemma listeners_at_on_source r f w o :
  listeners_at (on_source r f w) o
  = if decide (r = o) then (fun qe => qe_listeners (f qe)) <$> heap w !! o
    else listeners_at w o.
Proof.
  unfold listeners_at, on_source. simpl. rewrite list_lookup_alter.
  case_decide; [subst|done]. by destruct (heap w !! o).
Qed.

Lemma listeners_at_close r w o :
  listeners_at (on_source r close w) o = listeners_at w o.
Proof.
  rewrite listeners_at_on_source. case_decide; [|done].
  unfold listeners_at. by destruct (heap w !! o).
Qed.

Lemma wf_release name w : wf w -> wf (releaseQueueEvents name w).
Proof.
  intros W. apply (wf_same_view w); [| | | |done].
  - intros j. by rewrite sessions_release.
  - intros o ls Hls. unfold releaseQueueEvents.
    destruct (subscriptions w !! name) as [e|]; [|done].
    destruct (refCount e - 1 <=? 0); [|done].
    change (listeners_at (on_source (queueEvents e) close w) o = Some ls).
    by rewrite listeners_at_close.
  - intros o ls. unfold releaseQueueEvents.
    destruct (subscriptions w !! name) as [e|]; [|by left].
    destruct (refCount e - 1 <=? 0); [|by left].
    change (listeners_at (on_source (queueEvents e) close w) o = Some ls
            -> listeners_at w o = Some ls \/ ls = []).
    rewrite listeners_at_close. by left.
  - intros n sub. unfold releaseQueueEvents.
    destruct (subscriptions w !! name) as [e|] eqn:He;
      [|apply (wf_subscribed _ W)].
    destruct (refCount e - 1 <=? 0); simpl.
    + rewrite length_alter. intros [_ H]%lookup_delete_Some.
      by apply (wf_subscribed _ W n).
    + intros [[<- <-]|[_ H]]%lookup_insert_Some; simpl;
        [by apply (wf_subscribed _ W name)|by apply (wf_subscribed _ W n)].
Qed.

Lemma wf_acquire name c p w :
  wf w ->
  wf (snd (acquireQueueEvents name c p w))
  /\ (fst (acquireQueueEvents name c p w)
      < length (heap (snd (acquireQueueEvents name c p w))))%nat.
Proof.
  intros W. unfold acquireQueueEvents.
  destruct (subscriptions w !! name) as [e|] eqn:He; simpl.
  - split; [|by apply (wf_subscribed _ W name)].
    apply (wf_same_view w); [done|done|by left| |done].
    intros n sub. simpl.
    intros [[<- <-]|[_ H]]%lookup_insert_Some; simpl;
      [by apply (wf_subscribed _ W name)|by apply (wf_subscribed _ W n)].
  - split; [|rewrite length_app; simpl; lia].
    apply (wf_same_view w); [done| | | |done].
    + intros o ls. unfold listeners_at. simpl. intros H.
      rewrite lookup_app_l; [done|].
      destruct (heap w !! o) eqn:E; [|done]. by apply lookup_lt_Some in E.
    + intros o ls. unfold listeners_at. simpl.
      destruct ((heap w ++ _) !! o) as [qe|] eqn:E; [|done].
      apply lookup_app_Some in E as [E|[_ E]].
      * rewrite E. by left.
      * destruct (o - length (heap w))%nat; [|done].
        simpl in E. simplify_eq. simpl. intros [= <-]. by right.
    + intros n sub. simpl. rewrite length_app. simpl.
      intros [[<- <-]|[_ H]]%lookup_insert_Some; simpl; [lia|].
      pose proof (wf_subscribed _ W n sub H). lia.
Qed.

Lemma wf_handler h args w : wf w -> wf (handler h args w).
Proof.
  intros W. apply wf_on_session; [|done].
  intros s _. by destruct (running s).
Qed.

Lemma wf_emit source eventType args w :
  wf w -> wf (emit source eventType args w).
Proof.
  unfold emit. destruct (heap w !! source) as [qe|]; [|done].
  generalize (qe_listeners qe). intros ls. revert w.
  induction ls as [|l ls IH]; intros w W; [done|].
  simpl. apply IH. case_decide; [by apply wf_handler|done].
Qed.

Lemma release_on_session name sid f w :
  releaseQueueEvents name (on_session sid f w)
  = on_session sid f (releaseQueueEvents name w).
Proof.
  unfold releaseQueueEvents. simpl.
  destruct (subscriptions w !! name); [|done]. by case_match.
Qed.

(** The [finally] block as one change of the source, one release and
    one change of the session. *)
Lemma cleanup_unfold sid thrown w s :
  sessions w !! sid = Some s ->
  cleanup sid thrown w
  = releaseQueueEvents (s_name s)
      (on_session sid (fun s => count_release (set_phase (Ended thrown) s))
         (on_source (s_queueEvents s)
            (fun qe => set_listeners (remove_all (listeners s) (qe_listeners qe)) qe)
            w)).
Proof.
  intros E. unfold cleanup. rewrite E, detach_all.
  by rewrite release_on_session.
Qed.

Lemma wf_detached sid thrown w s :
  wf w -> sessions w !! sid = Some s -> ended s = false ->
  wf (on_session sid (fun s => count_release (set_phase (Ended thrown) s))
        (on_source (s_queueEvents s)
           (fun qe => set_listeners (remove_all (listeners s) (qe_listeners qe)) qe)
           w)).
Proof.
  intros W E Hend.
  set (q := s_queueEvents s). set (L := listeners s).
  set (F := fun s => count_release (set_phase (Ended thrown) s)).
  set (G := fun qe => set_listeners (remove_all L (qe_listeners qe)) qe).
  set (wb := on_session sid F (on_source q G w)).
  assert (forall j s', sessions wb !! j = Some s' ->
            (j = sid /\ s' = F s) \/ (j <> sid /\ sessions w !! j = Some s'))
    as HS.
  { intros j s'. subst wb. simpl. rewrite list_lookup_alter.
    case_decide as Hj; [subst j; rewrite E|]; simpl.
    - intros [= <-]. by left.
    - intros H. right. split; [congruence|done]. }
  assert (forall j s0, j <> sid -> sessions w !! j = Some s0 ->
            sessions wb !! j = Some s0) as HS'.
  { intros j s0 Hj H. subst wb. simpl.
    by rewrite list_lookup_alter_ne by congruence. }
  assert (forall o ls, listeners_at w o = Some ls ->
            listeners_at wb o
            = Some (if decide (q = o) then filter (fun y => y ∉ L) ls else ls))
    as HL'.
  { intros o ls H. subst wb.
    change (listeners_at (on_source q G w) o
            = Some (if decide (q = o) then filter (fun y => y ∉ L) ls else ls)).
    rewrite listeners_at_on_source. case_decide as Hq; [|done].
    unfold listeners_at in H. destruct (heap w !! o) as [qe|] eqn:Hqe; [|done].
    injection H as <-. simpl. f_equal. apply remove_all_nodup.
    apply (wf_nodup _ W o). unfold listeners_at. by rewrite Hqe. }
  assert (forall o ls', listeners_at wb o = Some ls' ->
            exists ls, listeners_at w o = Some ls
                       /\ ls' = if decide (q = o)
                                then filter (fun y => y ∉ L) ls else ls)
    as HL.
  { intros o ls' H. destruct (listeners_at w o) as [ls|] eqn:Hls.
    - exists ls. split; [done|]. rewrite (HL' _ _ Hls) in H. congruence.
    - exfalso. subst wb. unfold listeners_at in *. simpl in H.
      rewrite list_lookup_alter in H.
      case_decide; [subst o|]; by destruct (heap w !! _). }
  pose proof (wf_own _ W sid s E) as HownS.
  split.
  - intros j s' [[-> ->]|[Hj H]]%HS.
    + simpl. rewrite (wf_releases _ W sid s E), Hend. done.
    + by apply (wf_releases _ W j).
  - intros j s' [[-> ->]|[Hj H]]%HS.
    + simpl. done.
    + by apply (wf_own _ W j).
  - intros j s' [[-> ->]|[Hj H]]%HS Hend'; [done|].
    destruct (wf_attached _ W j s' H Hend') as (ls & Hls & Hsub).
    eexists. split; [by apply HL'|].
    case_decide; [|done]. intros l Hl. apply list_elem_of_filter.
    split; [|by apply Hsub]. intros HlL. subst L.
    rewrite HownS in HlL. rewrite (wf_own _ W j s' H) in Hl.
    apply session_listeners_owner in HlL, Hl. congruence.
  - intros o ls' l (ls & Hls & ->)%HL Hl.
    assert (l ∈ ls /\ (q = o -> l ∉ L)) as [Hl0 HnL].
    { case_decide; [|done]. apply list_elem_of_filter in Hl as [? ?]. done. }
    destruct (wf_listener _ W o ls l Hls Hl0) as (s0 & E0 & Hend0 & Hq0 & Hin0).
    exists s0. split; [|done]. apply HS'; [|done].
    intros Hsid. rewrite Hsid, E in E0. simplify_eq. by apply HnL.
  - intros o ls' (ls & Hls & ->)%HL.
    pose proof (wf_nodup _ W o ls Hls).
    case_decide; [by apply NoDup_filter|done].
  - intros n sub. subst wb. simpl. rewrite length_alter.
    apply (wf_subscribed _ W).
Qed.

Lemma wf_cleanup sid thrown w s :
  wf w -> sessions w !! sid = Some s -> ended s = false ->
  wf (cleanup sid thrown w).
Proof.
  intros W E Hend. rewrite (cleanup_unfold _ _ _ _ E).
  by apply wf_release, wf_detached.
Qed.

Lemma wf_loop_head sid now w s :
  wf w -> sessions w !! sid = Some s -> ended s = false ->
  wf (loop_head sid now w).
Proof.
  intros W E Hend. unfold loop_head. rewrite E.
  destruct (running s); [|by eapply wf_cleanup].
  apply wf_on_session; [|done].
  intros s' E'. rewrite E in E'. simplify_eq.
  unfold lifecycle, ended in *. simpl. by destruct (at_phase s').
Qed.

Lemma createLiveSSE_unfold conn prefix name now w :
  let a := acquireQueueEvents name conn prefix w in
  let sid := length (sessions w) in
  createLiveSSE (Some conn) prefix name now w
  = loop_head sid now
      (set_sessions (sessions w ++ [attached_session name (fst a) sid])
         (on_source (fst a)
            (fun qe => set_listeners (qe_listeners qe ++ session_listeners sid) qe)
            (snd a))).
Proof.
  cbv zeta. unfold createLiveSSE.
  pose proof (sessions_acquire name conn prefix w) as Hs.
  destruct (acquireQueueEvents name conn prefix w) as [q w1].
  cbn [fst snd] in *.
  rewrite attach_all, Hs. f_equal.
  unfold on_session, on_source, set_sessions, set_heap.
  cbn [sessions heap subscriptions]. f_equal.
  rewrite alter_app_r_alt, Nat.sub_diag by done. done.
Qed.

Lemma wf_attached_session name q w :
  wf w -> (q < length (heap w))%nat ->
  wf (set_sessions
        (sessions w ++ [attached_session name q (length (sessions w))])
        (on_source q
           (fun qe =>
              set_listeners
                (qe_listeners qe ++ session_listeners (length (sessions w))) qe)
           w)).
Proof.
  intros W Hq.
  set (sid := length (sessions w)). set (L := session_listeners sid).
  set (fresh := attached_session name q sid).
  set (G := fun qe => set_listeners (qe_listeners qe ++ L) qe).
  set (wb := set_sessions (sessions w ++ [fresh]) (on_source q G w)).
  assert (forall j s', sessions wb !! j = Some s' ->
            sessions w !! j = Some s' \/ (j = sid /\ s' = fresh)) as HS.
  { intros j s'. subst wb. simpl. intros [H|[Hj H]]%lookup_app_Some; [by left|].
    right. fold sid in Hj, H. destruct (j - sid)%nat eqn:Hd.
    - simpl in H. split; [lia|congruence].
    - by destruct n. }
  assert (forall j s0, sessions w !! j = Some s0 -> sessions wb !! j = Some s0)
    as HS'.
  { intros j s0 H. subst wb. simpl. rewrite lookup_app_l; [done|].
    by apply lookup_lt_Some in H. }
  assert (sessions wb !! sid = Some fresh) as Hfresh.
  { subst wb. simpl. by apply list_lookup_middle. }
  assert (forall o ls, listeners_at w o = Some ls ->
            listeners_at wb o = Some (if decide (q = o) then ls ++ L else ls))
    as HL'.
  { intros o ls H. subst wb.
    change (listeners_at (on_source q G w) o
            = Some (if decide (q = o) then ls ++ L else ls)).
    rewrite listeners_at_on_source. case_decide as Ho; [|done].
    unfold listeners_at in H. destruct (heap w !! o) as [qe|]; [|done].
    by injection H as <-. }
  assert (forall o ls', listeners_at wb o = Some ls' ->
            exists ls, listeners_at w o = Some ls
                       /\ ls' = if decide (q = o) then ls ++ L else ls)
    as HL.
  { intros o ls' H. destruct (listeners_at w o) as [ls|] eqn:Hls.
    - exists ls. split; [done|]. rewrite (HL' _ _ Hls) in H. congruence.
    - exfalso. subst wb. unfold listeners_at in *. simpl in H.
      rewrite list_lookup_alter in H.
      case_decide; [subst o|]; by destruct (heap w !! _). }
  assert (forall j s0, sessions w !! j = Some s0 -> j <> sid) as Hold.
  { intros j s0 H%lookup_lt_Some. subst sid. lia. }
  split.
  - intros j s' [H|[-> ->]]%HS; [by apply (wf_releases _ W j)|done].
  - intros j s' [H|[-> ->]]%HS; [by apply (wf_own _ W j)|done].
  - intros j s' [H|[-> ->]]%HS Hend.
    + destruct (wf_attached _ W j s' H Hend) as (ls & Hls & Hsub).
      eexists. split; [by apply HL'|].
      case_decide; [by apply list_subseteq_app_l|done].
    + simpl. destruct (lookup_lt_is_Some_2 (heap w) q Hq) as [qe Hqe].
      eexists. split.
      * apply HL'. unfold listeners_at. by rewrite Hqe.
      * rewrite decide_True by done. by apply list_subseteq_app_r.
  - intros o ls' l (ls & Hls & ->)%HL Hl.
    assert (l ∈ ls \/ (q = o /\ l ∈ L)) as [Hl0|[Ho HlL]].
    { case_decide; [|by left]. apply elem_of_app in Hl as [?|?]; auto. }
    + destruct (wf_listener _ W o ls l Hls Hl0) as (s0 & E0 & ?).
      exists s0. split; [by apply HS'|done].
    + exists fresh. rewrite (session_listeners_owner sid l HlL).
      split; [done|]. by subst o.
  - intros o ls' (ls & Hls & ->)%HL.
    pose proof (wf_nodup _ W o ls Hls) as Hnd.
    case_decide; [|done]. apply NoDup_app. split; [done|]. split.
    + intros l Hl HlL.
      destruct (wf_listener _ W o ls l Hls Hl) as (s0 & E0 & _).
      apply (Hold _ _ E0). by apply session_listeners_owner.
    + apply session_listeners_nodup.
  - intros n sub. subst wb. simpl. rewrite length_alter.
    apply (wf_subscribed _ W).
Qed.

Lemma wf_createLiveSSE connection prefix name now w :
  wf w -> wf (createLiveSSE connection prefix name now w).
Proof.
  intros W. destruct connection as [conn|]; [|done].
  rewrite createLiveSSE_unfold.
  destruct (wf_acquire name conn prefix w W) as [W1 Hq].
  rewrite <- (sessions_acquire name conn prefix w).
  eapply wf_loop_head.
  - by apply wf_attached_session.
  - simpl. by apply list_lookup_middle.
  - done.
Qed.

Lemma wf_step w e : wf w -> wf (step w e).
Proof.
  intros W. destruct e; simpl.
  - by apply wf_createLiveSSE.
  - by apply wf_emit.
  - apply wf_on_session; [by intros s|done].
  - destruct (sessions w !! sid) as [s|] eqn:E; [|done]. simpl.
    destruct (at_phase s) eqn:Hp; try done.
    destruct ok.
    + apply wf_on_session; [|done]. intros s' E'. simplify_eq.
      unfold lifecycle, ended. simpl. by rewrite Hp.
    + eapply wf_cleanup; [done..|]. unfold ended. by rewrite Hp.
  - destruct (sessions w !! sid) as [s|] eqn:E; [|done]. simpl.
    destruct (at_phase s) eqn:Hp; try done.
    destruct ok.
    + eapply (wf_loop_head _ _ _ (set_phase LoopHead s)).
      * apply wf_on_session; [|done]. intros s' E'. simplify_eq.
        unfold lifecycle, ended. simpl. by rewrite Hp.
      * simpl. by rewrite list_lookup_alter_eq, E.
      * done.
    + eapply wf_cleanup; [done..|]. unfold ended. by rewrite Hp.
Qed.

Lemma wf_run evs w : wf w -> wf (run evs w).
Proof.
  revert w. induction evs as [|e evs IH]; intros w W; [done|].
  simpl. apply IH. by apply wf_step.
Qed.





Lemma lookup_on_session sid f w :
  sessions (on_session sid f w) !! sid = f <$> sessions w !! sid.
Proof. unfold on_session. simpl. apply list_lookup_alter_eq. Qed.



(** An event of one session leaves every other session as it was. *)
Lemma sessions_cleanup_other sid sid' thrown w :
  sid <> sid' ->
  sessions (cleanup sid' thrown w) !! sid = sessions w !! sid.
Proof.
  intros Hne. destruct (sessions w !! sid') as [s'|] eqn:E.
  - rewrite (cleanup_unfold _ _ _ _ E), sessions_release. simpl.
    by rewrite list_lookup_alter_ne by done.
  - unfold cleanup. by rewrite E.
Qed.

Lemma sessions_loop_head_other sid sid' now w :
  sid <> sid' ->
  sessions (loop_head sid' now w) !! sid = sessions w !! sid.
Proof.
  intros Hne. unfold loop_head. destruct (sessions w !! sid') as [s'|]; [|done].
  destruct (running s'); [|by apply sessions_cleanup_other].
  simpl. by rewrite list_lookup_alter_ne by done.
Qed.

Lemma step_other_session w e sid sid' :
  of_session e = Some sid' -> sid <> sid' ->
  sessions (step w e) !! sid = sessions w !! sid.
Proof.
  intros He Hne. destruct e; simplify_eq/=.
  - by rewrite list_lookup_alter_ne by done.
  - destruct (at_phase <$> sessions w !! sid') as [[]|]; try done.
    destruct ok; [|by apply sessions_cleanup_other].
    simpl. by rewrite list_lookup_alter_ne by done.
  - destruct (at_phase <$> sessions w !! sid') as [[]|]; try done.
    destruct ok; [|by apply sessions_cleanup_other].
    rewrite sessions_loop_head_other by done.
    simpl. by rewrite list_lookup_alter_ne by done.
Qed.

Lemma numbered_lookup n l k m :
  numbered n l -> l !! k = Some m -> id m = pretty k.
Proof.
  intros [_ Hids] Hk.
  assert ((id <$> l) !! k = Some (id m)) as H by by rewrite list_lookup_fmap, Hk.
  rewrite Hids, list_lookup_fmap in H.
  apply lookup_lt_Some in Hk.
  rewrite lookup_seq_lt in H by done. simpl in H. congruence.
Qed.

Lemma acquire_release_refcount_witness :
  subscriptions empty_world !! "emails" = None
  /\ fst (acquireQueueEvents "emails" Scenario.elsewhere (Some "glide")
            (snd (acquireQueueEvents "emails" Scenario.localhost None empty_world)))
     = fst (acquireQueueEvents "emails" Scenario.localhost None empty_world).
Proof.
  split; [reflexivity|].
  apply (acquire_release_refcount empty_world "emails"
           Scenario.localhost None Scenario.elsewhere (Some "glide")).
  reflexivity.
Defined.

Lemma acquire_existing_ignores_options_witness :
  let a1 := acquireQueueEvents "emails" Scenario.localhost None empty_world in
  let a2 := acquireQueueEvents "emails" Scenario.elsewhere (Some "glide") (snd a1) in
  fst a2 = fst a1
  /\ heap (snd a2) = heap (snd a1)
  /\ heap (snd a2) !! fst a2
     = Some {| qe_name := "emails"; qe_connection := Scenario.localhost;
               qe_prefix := None; qe_listeners := []; qe_closes := 0 |}.
Proof.
  apply (acquire_existing_ignores_options empty_world "emails"
           Scenario.elsewhere (Some "glide")).
  reflexivity.
Defined.


End EventsFacts.

(** ** Facts about the polling session *)

Module PollingFacts.
Import Polling.

Lemma count_of_initial state : count_of state initial_counts = 0.
Proof.
  unfold count_of, initial_counts. simpl.
  repeat (case_bool_decide; [done|]). done.
Qed.

(** In an object a key has one value: reading the key gives it. *)
Lemma count_of_entry (counts : Counts) state count :
  NoDup (fst <$> counts) -> (state, count) ∈ counts ->
  count_of state counts = count.
Proof.
  unfold count_of. induction counts as [|[k v] counts IH]; simpl.
  - by intros _ ?%elem_of_nil.
  - intros [Hk Hnd]%NoDup_cons [[= <- <-]|Hin]%elem_of_cons.
    + by rewrite bool_decide_eq_true_2.
    + rewrite bool_decide_eq_false_2; [by apply IH|].
      simpl. intros ->. apply Hk.
      by apply (list_elem_of_fmap_2 fst _ (state, count)).
Qed.

(** Reading a key that the object does not have gives the default. *)
Lemma count_of_absent (counts : Counts) state :
  state ∉ fst <$> counts -> count_of state counts = 0.
Proof.
  unfold count_of. induction counts as [|[k v] counts IH]; [done|].
  rewrite fmap_cons, not_elem_of_cons. simpl. intros [Hk Hin].
  rewrite bool_decide_eq_false_2 by congruence. by apply IH.
Qed.

Lemma count_of_holds (last : Counts) state v :
  NoDup (fst <$> last) -> holds last state v -> count_of state last = v.
Proof.
  intros Hnd [Hin|[Hout ->]];
    [by apply count_of_entry|by apply count_of_absent].
Qed.

Lemma holds_count_of (last : Counts) state :
  holds last state (count_of state last).
Proof.
  unfold holds, count_of. induction last as [|[k v] last IH]; simpl.
  - right. split; [by intros ?%elem_of_nil|done].
  - case_bool_decide as Hk; simpl in *.
    + subst k. left. by left.
    + destruct IH as [Hin|[Hout Hv]].
      * left. by right.
      * right. split; [|done]. rewrite not_elem_of_cons. by split.
Qed.

Lemma delta_frames_same name last e counts start :
  snd e = count_of (fst e) last ->
  delta_frames name last (e :: counts) start = delta_frames name last counts start.
Proof.
  intros H. unfold delta_frames. rewrite filter_cons.
  by rewrite decide_False by (intros Hne; by apply Hne).
Qed.

Lemma delta_frames_changed name last e counts start :
  snd e <> count_of (fst e) last ->
  delta_frames name last (e :: counts) start
  = {| event := "counts";
       data := delta name (fst e) (snd e) (count_of (fst e) last);
       id := pretty start |}
    :: delta_frames name last counts (S start).
Proof.
  intros H. unfold delta_frames. rewrite filter_cons, decide_True by done.
  rewrite imap_cons, Nat.add_0_r. f_equal.
  apply imap_ext. intros i x _. simpl. do 2 f_equal. lia.
Qed.

Lemma delta_frames_unchanged name last counts start :
  Forall (fun e => snd e = count_of (fst e) last) counts ->
  delta_frames name last counts start = [].
Proof.
  induction 1 as [|e counts He _ IH]; [done|].
  by rewrite delta_frames_same.
Qed.

Lemma delta_frames_app name last c1 c2 start :
  Forall (fun e => snd e = count_of (fst e) last) c1 ->
  delta_frames name last (c1 ++ c2) start = delta_frames name last c2 start.
Proof.
  induction 1 as [|e c1 He _ IH]; [done|].
  simpl. by rewrite delta_frames_same.
Qed.

(** Each of the frames belongs to an entry whose count differs from what
    the baseline holds, and says so. *)
Lemma delta_frames_lookup name last counts start i m :
  delta_frames name last counts start !! i = Some m ->
  exists state count prev,
    (state, count) ∈ counts
    /\ holds last state prev
    /\ count <> prev
    /\ m = {| event := "counts";
              data := JObj [("queue", JStr name); ("state", JStr state);
                            ("count", JNum count); ("prev", JNum prev)];
              id := pretty (start + i)%nat |}.
Proof.
  unfold delta_frames. rewrite list_lookup_imap.
  destruct (filter _ counts !! i) as [[state count]|] eqn:Hf; [|done].
  simpl. intros [= <-].
  apply list_elem_of_lookup_2, list_elem_of_filter in Hf as [Hne Hin].
  exists state, count, (count_of state last).
  split; [done|]. split; [apply holds_count_of|]. by split.
Qed.

(** An entry whose count differs from the baseline has its frame, an
    entry whose count does not has none. *)
Lemma delta_frames_data name last counts start state count prev :
  NoDup (fst <$> last) ->
  (state, count) ∈ counts -> holds last state prev ->
  count <> prev
  <-> JObj [("queue", JStr name); ("state", JStr state);
            ("count", JNum count); ("prev", JNum prev)]
      ∈ data <$> delta_frames name last counts start.
Proof.
  intros Hnd Hin Hprev.
  pose proof (count_of_holds last state prev Hnd Hprev) as Hc.
  split.
  - intros Hne.
    assert ((state, count)
              ∈ filter (fun e : string * Z => snd e <> count_of (fst e) last)
                       counts) as Hf
      by (apply list_elem_of_filter; simpl; by rewrite Hc).
    apply list_elem_of_lookup_1 in Hf as [i Hi].
    apply list_elem_of_fmap.
    exists {| event := "counts";
              data := delta name state count (count_of state last);
              id := pretty (start + i)%nat |}.
    split; [simpl; unfold delta; by rewrite Hc|].
    apply (list_elem_of_lookup_2 _ i).
    unfold delta_frames. by rewrite list_lookup_imap, Hi.
  - intros (m & Hm & [i Hi]%list_elem_of_lookup_1)%list_elem_of_fmap.
    apply delta_frames_lookup in Hi
      as (state' & count' & prev' & _ & _ & Hne & ->).
    simpl in Hm. by simplify_eq.
Qed.

Lemma abort_if_keeps b s :
  name (abort_if b s) = name s
  /\ queue (abort_if b s) = queue s
  /\ eventId (abort_if b s) = eventId s
  /\ lastCounts (abort_if b s) = lastCounts s
  /\ written (abort_if b s) = written s
  /\ at_phase (abort_if b s) = at_phase s.
Proof. by destruct b. Qed.

Section Stream.

Variable write_ok : nat -> bool.
Variable aborted_during : nat -> bool.

Local Abbreviation diff_counts := (Polling.diff_counts write_ok aborted_during).
Local Abbreviation step := (Polling.step write_ok aborted_during).
Local Abbreviation run := (Polling.run write_ok aborted_during).

(** With every write succeeding the loop runs to its end and writes the
    frames of the changed states. *)
Lemma diff_counts_all_written counts s :
  (forall k, write_ok k = true) ->
  fst (diff_counts counts s) = true
  /\ written (snd (diff_counts counts s))
     = written s ++ delta_frames (name s) (lastCounts s) counts (eventId s).
Proof.
  intros Hok. revert s.
  induction counts as [|[state count] counts IH]; intros s.
  - simpl. by rewrite app_nil_r.
  - simpl. case_decide as Hc.
    + rewrite Hok.
      destruct (IH (abort_if (aborted_during (eventId s))
                      (writeSSE "counts"
                         (delta (name s) state count
                            (count_of state (lastCounts s))) s)))
        as [-> ->].
      destruct (abort_if_keeps (aborted_during (eventId s))
                  (writeSSE "counts"
                     (delta (name s) state count
                        (count_of state (lastCounts s))) s))
        as (-> & _ & -> & -> & -> & _).
      split; [done|]. simpl. rewrite <- app_assoc. f_equal.
      by rewrite (delta_frames_changed _ _ (state, count)).
    + destruct (IH s) as [-> ->]. split; [done|].
      rewrite (delta_frames_same _ _ (state, count)); [done|].
      simpl. by destruct (decide (count = count_of state (lastCounts s))).
Qed.

(** Whatever becomes of the writes, what the loop writes is an initial
    part of the frames of the changed states. *)
Lemma diff_counts_written_prefix counts s :
  exists n,
    written (snd (diff_counts counts s))
    = written s
      ++ take n (delta_frames (name s) (lastCounts s) counts (eventId s)).
Proof.
  revert s. induction counts as [|[state count] counts IH]; intros s.
  - exists 0%nat. simpl. by rewrite app_nil_r.
  - simpl. case_decide as Hc.
    + rewrite (delta_frames_changed _ _ (state, count)) by done.
      pose proof (abort_if_keeps (aborted_during (eventId s))
                    (writeSSE "counts"
                       (delta (name s) state count
                          (count_of state (lastCounts s))) s))
        as (Hn & _ & He & Hl & Hw & _).
      destruct (write_ok (eventId s)).
      * destruct (IH (abort_if (aborted_during (eventId s))
                        (writeSSE "counts"
                           (delta (name s) state count
                              (count_of state (lastCounts s))) s))) as [n ->].
        rewrite Hn, He, Hl, Hw.
        exists (S n). simpl. by rewrite <- app_assoc.
      * exists 1%nat. simpl. by rewrite Hw, take_0.
    + destruct (IH s) as [n ->]. exists n.
      rewrite (delta_frames_same _ _ (state, count)); [done|].
      simpl. by destruct (decide (count = count_of state (lastCounts s))).
Qed.

Lemma diff_counts_numbered counts s :
  numbered (eventId s) (written s) ->
  numbered (eventId (snd (diff_counts counts s)))
           (written (snd (diff_counts counts s))).
Proof.
  revert s. induction counts as [|[state count] counts IH]; intros s H; [done|].
  simpl. case_decide; [|by apply IH].
  assert (numbered
            (eventId (abort_if (aborted_during (eventId s))
                        (writeSSE "counts"
                           (delta (name s) state count
                              (count_of state (lastCounts s))) s)))
            (written (abort_if (aborted_during (eventId s))
                        (writeSSE "counts"
                           (delta (name s) state count
                              (count_of state (lastCounts s))) s)))) as H1.
  { destruct (aborted_during (eventId s)); by apply EventsFacts.numbered_snoc. }
  destruct (write_ok (eventId s)); [by apply IH|done].
Qed.

Lemma poll_step_numbered s e :
  numbered (eventId s) (written s) ->
  numbered (eventId (step s e)) (written (step s e)).
Proof.
  intros H. destruct e as [[counts|]|ok|]; simpl; try done.
  - destruct (at_phase s); try done.
    destruct (running s); simpl; [|done].
    pose proof (diff_counts_numbered counts s H) as H'.
    by destruct (diff_counts counts s) as [[] s1].
  - by destruct (at_phase s).
  - destruct (at_phase s); try done. destruct ok; [|done].
    by destruct (running s).
Qed.

Lemma poll_run_numbered evs s :
  numbered (eventId s) (written s) ->
  numbered (eventId (run evs s)) (written (run evs s)).
Proof.
  revert s. induction evs as [|e evs IH]; intros s H; [done|].
  simpl. apply IH. by apply poll_step_numbered.
Qed.

(** A settled read on a running session at the awaited read. *)
Lemma step_counts s counts :
  at_phase s = AwaitCounts -> running s = true ->
  step s (CountsSettled (Some counts))
  = if fst (diff_counts counts s)
    then set_phase AwaitSleep (set_lastCounts counts (snd (diff_counts counts s)))
    else set_phase (Ended false) (snd (diff_counts counts s)).
Proof.
  intros Hp Hr. simpl. rewrite Hp, Hr. simpl.
  by destruct (diff_counts counts s).
Qed.

(** C7.  A poll tick of a running session whose read succeeds, with a
    baseline that, as an object, has each state once.  The previous count
    of a state is the count the baseline holds for it, 0 if it holds
    none.  Whatever becomes of the writes, every message written in the
    tick is the frame of an entry whose count differs from its previous
    count: the event is "counts", the payload is the object of [queue],
    [state], [count] and [prev] with the queue's name, the state, the
    count read and the previous count, and the identifier is the next
    one.  If the session goes on to sleep, the counts read are the new
    baseline.  When the writes succeed it does go on, whatever the number
    of frames, and of the entries read exactly those whose count differs
    from the previous count have their frame among the messages written:
    none is written when every count is the previous one, and when one
    entry differs exactly its frame is written. *)
Theorem poll_tick_deltas s counts :
  at_phase s = AwaitCounts -> running s = true ->
  NoDup (fst <$> lastCounts s) ->
  (exists frames,
     written (step s (CountsSettled (Some counts))) = written s ++ frames
     /\ forall i m,
          frames !! i = Some m ->
          exists state count prev,
            (state, count) ∈ counts
            /\ holds (lastCounts s) state prev
            /\ count <> prev
            /\ m = {| event := "counts";
                      data := JObj [("queue", JStr (name s));
                                    ("state", JStr state);
                                    ("count", JNum count);
                                    ("prev", JNum prev)];
                      id := pretty (eventId s + i)%nat |})
  /\ (at_phase (step s (CountsSettled (Some counts))) = AwaitSleep ->
      lastCounts (step s (CountsSettled (Some counts))) = counts)
  /\ ((forall k, write_ok k = true) ->
      at_phase (step s (CountsSettled (Some counts))) = AwaitSleep
      /\ lastCounts (step s (CountsSettled (Some counts))) = counts
      /\ (exists frames,
            written (step s (CountsSettled (Some counts))) = written s ++ frames
            /\ forall state count prev,
                 (state, count) ∈ counts ->
                 holds (lastCounts s) state prev ->
                 count <> prev
                 <-> JObj [("queue", JStr (name s)); ("state", JStr state);
                           ("count", JNum count); ("prev", JNum prev)]
                     ∈ data <$> frames)
      /\ ((forall state count,
             (state, count) ∈ counts -> holds (lastCounts s) state count) ->
          written (step s (CountsSettled (Some counts))) = written s)
      /\ (forall before state count prev after,
            counts = before ++ (state, count) :: after ->
            (forall state' count',
               (state', count') ∈ before ++ after ->
               holds (lastCounts s) state' count') ->
            holds (lastCounts s) state prev ->
            count <> prev ->
            written (step s (CountsSettled (Some counts)))
            = written s
              ++ [{| event := "counts";
                     data := JObj [("queue", JStr (name s));
                                   ("state", JStr state);
                                   ("count", JNum count);
                                   ("prev", JNum prev)];
                     id := pretty (eventId s) |}])).
Proof.
  intros Hp Hr Hnd. rewrite (step_counts s counts Hp Hr).
  assert (forall l : Counts,
            (forall state count, (state, count) ∈ l ->
                                 holds (lastCounts s) state count) ->
            Forall (fun e => snd e = count_of (fst e) (lastCounts s)) l)
    as Hsame.
  { intros l Hl. apply Forall_forall. intros [state count] Hin. simpl.
    symmetry. apply count_of_holds; [done|]. by apply Hl. }
  split; [|split].
  - destruct (diff_counts_written_prefix counts s) as [n Hn].
    exists (take n (delta_frames (name s) (lastCounts s) counts (eventId s))).
    split; [by destruct (fst (diff_counts counts s))|].
    intros i m Hi. apply lookup_take_Some in Hi as [Hi _].
    by apply delta_frames_lookup in Hi.
  - by destruct (fst (diff_counts counts s)).
  - intros Hok. destruct (diff_counts_all_written counts s Hok) as [Hfin Hw].
    rewrite Hfin. simpl. split; [done|]. split; [done|].
    split; [|split].
    + exists (delta_frames (name s) (lastCounts s) counts (eventId s)).
      split; [done|]. intros state count prev Hin Hprev.
      by apply delta_frames_data.
    + intros Hall. rewrite Hw, delta_frames_unchanged; [|by apply Hsame].
      by rewrite app_nil_r.
    + intros before state count prev after -> Hrest Hprev Hne.
      rewrite Hw. f_equal.
      pose proof (count_of_holds _ _ _ Hnd Hprev) as Hcount.
      rewrite delta_frames_app
        by (apply Hsame; intros ???; apply Hrest, elem_of_app; by left).
      rewrite (delta_frames_changed _ _ (state, count))
        by (simpl; by rewrite Hcount).
      rewrite delta_frames_unchanged
        by (apply Hsame; intros ???; apply Hrest, elem_of_app; by right).
      simpl. by rewrite Hcount.
Qed.

(** C6, as amended.  A polling session opens without reading counts: its
    baseline is 0 for the five states and nothing is written.  On the
    first tick, with the writes succeeding, every state whose count is
    not 0 gets a delta frame with previous count 0, and the counts read
    become the baseline. *)
Theorem polling_baseline_starts_at_zero name registry s registry' counts :
  createTestingSSE name registry = (inr s, registry') ->
  lastCounts s = initial_counts
  /\ written s = []
  /\ at_phase s = AwaitCounts
  /\ ((forall k, write_ok k = true) ->
      written (step s (CountsSettled (Some counts)))
      = imap (fun i (e : string * Z) =>
                {| event := "counts";
                   data := delta name (fst e) (snd e) 0;
                   id := pretty i |})
          (filter (fun e : string * Z => snd e <> 0) counts)
      /\ lastCounts (step s (CountsSettled (Some counts))) = counts).
Proof.
  unfold createTestingSSE.
  destruct (Registry.get name registry) as [[err|mq] r]; [done|].
  intros [= <- <-]. do 3 (split; [done|]).
  intros Hok.
  rewrite step_counts by done.
  destruct (diff_counts_all_written counts
              {| name := name; queue := Registry.queue mq; eventId := 0;
                 lastCounts := initial_counts; running := true;
                 written := []; at_phase := AwaitCounts |} Hok) as [Hfin Hw].
  rewrite Hfin. simpl. split; [|done].
  rewrite Hw. simpl. unfold delta_frames.
  rewrite (list_filter_iff _ (fun e : string * Z => snd e <> 0));
    [|intros e; by rewrite count_of_initial].
  apply imap_ext. intros i e _. simpl. by rewrite count_of_initial.
Qed.

End Stream.

(** C6 as stated fails: the session opened on "emails" starts from the
    zero baseline, so a queue that already has three waiting jobs gets a
    delta frame on the first tick. *)
Lemma polling_first_tick_counterexample :
  exists s registry',
    createTestingSSE "emails" Scenario.two_queues_fresh = (inr s, registry')
    /\ lastCounts s = initial_counts
    /\ lastCounts s <> Scenario.three_waiting
    /\ written (step (fun _ => true) (fun _ => false) s
                  (CountsSettled (Some Scenario.three_waiting)))
       = [{| event := "counts"; data := delta "emails" "waiting" 3 0; id := "0" |}].
Proof.
  eexists _, _. split; [reflexivity|]. split; [reflexivity|].
  split; [discriminate|]. vm_compute. reflexivity.
Qed.

Lemma polling_baseline_starts_at_zero_witness :
  exists s registry',
    createTestingSSE "emails" Scenario.two_queues_fresh = (inr s, registry')
    /\ lastCounts s = initial_counts
    /\ written s = []
    /\ at_phase s = AwaitCounts
    /\ ((forall k : nat, (fun _ => true) k = true) ->
        written (step (fun _ => true) (fun _ => false) s
                   (CountsSettled (Some Scenario.three_waiting)))
        = imap (fun i (e : string * Z) =>
                  {| event := "counts";
                     data := delta "emails" (fst e) (snd e) 0;
                     id := pretty i |})
            (filter (fun e : string * Z => snd e <> 0) Scenario.three_waiting)
        /\ lastCounts (step (fun _ => true) (fun _ => false) s
                         (CountsSettled (Some Scenario.three_waiting)))
           = Scenario.three_waiting).
Proof.
  eexists _, _. split; [reflexivity|].
  apply (polling_baseline_starts_at_zero (fun _ => true) (fun _ => false)
           "emails" Scenario.two_queues_fresh _ _ Scenario.three_waiting
           eq_refl).
Defined.

(** The session of "emails" has reported three waiting jobs; now five
    are waiting and nothing else has changed. *)
Lemma poll_tick_deltas_witness :
  at_phase Examples.polling_three = AwaitCounts
  /\ running Examples.polling_three = true
  /\ NoDup (fst <$> lastCounts Examples.polling_three)
  /\ written (step (fun _ => true) (fun _ => false) Examples.polling_three
                (CountsSettled (Some Examples.five_waiting)))
     = written Examples.polling_three
       ++ [{| event := "counts";
              data := JObj [("queue", JStr (name Examples.polling_three));
                            ("state", JStr "waiting");
                            ("count", JNum 5); ("prev", JNum 3)];
              id := pretty (eventId Examples.polling_three) |}]
  /\ lastCounts (step (fun _ => true) (fun _ => false) Examples.polling_three
                   (CountsSettled (Some Examples.five_waiting)))
     = Examples.five_waiting.
Proof.
  assert (NoDup (fst <$> lastCounts Examples.polling_three)) as Hnd
    by (apply (bool_decide_unpack _); vm_compute; exact I).
  split; [reflexivity|]. split; [reflexivity|]. split; [exact Hnd|].
  destruct (poll_tick_deltas (fun _ => true) (fun _ => false)
              Examples.polling_three Examples.five_waiting eq_refl eq_refl Hnd)
    as (_ & _ & H).
  destruct (H (fun _ => eq_refl)) as (_ & Hl & _ & _ & Hone).
  split; [|exact Hl].
  apply (Hone [] "waiting" 5 3
           [("active", 0); ("completed", 0); ("failed", 0); ("delayed", 0)]
           eq_refl).
  - intros state' count' Hin. left.
    apply list_elem_of_further. exact Hin.
  - left. apply list_elem_of_here.
  - discriminate.
Defined.

End PollingFacts.

(** ** Facts about the message identifiers of both kinds of session *)

Module StreamFacts.

(** C8.  In every history the messages a live session has written carry
    the identifiers 0, 1, 2, ... in decimal in the order of the calls of
    [writeSSE], heartbeats and forwarded events alike, and [eventId] is
    the next one; an event of another session does not touch the
    session.  The same numbering holds for a polling session in every
    history of its own. *)
Theorem frame_ids_sequential evs sid s write_ok aborted_during name registry p
    registry' pevs :
  Events.sessions (Events.run evs Events.empty_world) !! sid = Some s ->
  Polling.createTestingSSE name registry = (inr p, registry') ->
  (numbered (Events.eventId s) (Events.written s)
   /\ forall k m, Events.written s !! k = Some m -> id m = pretty k)
  /\ (forall e sid',
        Events.of_session e = Some sid' -> sid <> sid' ->
        Events.sessions (Events.step (Events.run evs Events.empty_world) e) !! sid
        = Some s)
  /\ (numbered (Polling.eventId (Polling.run write_ok aborted_during pevs p))
               (Polling.written (Polling.run write_ok aborted_during pevs p))
      /\ forall k m,
           Polling.written (Polling.run write_ok aborted_during pevs p) !! k = Some m ->
           id m = pretty k).
Proof.
  intros E Hp.
  assert (numbered (Events.eventId s) (Events.written s)) as Hs.
  { pose proof (EventsFacts.run_numbered evs Events.empty_world
                  (Forall_nil_2 _)) as H.
    unfold Events.all_numbered in H.
    rewrite Forall_lookup in H. by apply (H sid s). }
  assert (numbered (Polling.eventId (Polling.run write_ok aborted_during pevs p))
                   (Polling.written (Polling.run write_ok aborted_during pevs p))) as Hn.
  { apply PollingFacts.poll_run_numbered.
    unfold Polling.createTestingSSE in Hp.
    destruct (Registry.get name registry) as [[err|mq] r]; [done|].
    injection Hp as <- _. apply EventsFacts.numbered_nil. }
  split; [|split].
  - split; [done|]. intros k m. by apply EventsFacts.numbered_lookup with (n := Events.eventId s).
  - intros e sid' He Hne. by rewrite (EventsFacts.step_other_session _ e sid sid').
  - split; [done|]. intros k m. by eapply EventsFacts.numbered_lookup.
Qed.

Lemma frame_ids_sequential_witness :
  exists s p registry',
    Events.sessions (Events.run Scenario.two_clients Events.empty_world) !! 1%nat
    = Some s
    /\ Polling.createTestingSSE "emails" Scenario.two_queues_fresh
       = (inr p, registry')
    /\ id <$> Events.written s = ["0"; "1"]
    /\ numbered (Events.eventId s) (Events.written s)
    /\ numbered
         (Polling.eventId
            (Polling.run (fun _ => true) (fun _ => false)
               [Polling.CountsSettled (Some Scenario.three_waiting)] p))
         (Polling.written
            (Polling.run (fun _ => true) (fun _ => false)
               [Polling.CountsSettled (Some Scenario.three_waiting)] p)).
Proof.
  eexists _, _, _. split; [vm_compute; reflexivity|]. split; [reflexivity|].
  split; [vm_compute; reflexivity|].
  pose proof (frame_ids_sequential Scenario.two_clients 1 _ (fun _ => true)
                (fun _ => false) "emails" Scenario.two_queues_fresh _ _
                [Polling.CountsSettled (Some Scenario.three_waiting)]
                eq_refl eq_refl) as (H1 & _ & H3).
  split; [apply H1|apply H3].
Defined.

End StreamFacts.

(** ** More facts about the registry *)

Module RegistryMore.
Import Registry RegistryShape.

Section Facts.

Variable close_rejects : nat -> bool.

Local Abbreviation step := (Registry.step close_rejects).
Local Abbreviation run := (Registry.run close_rejects).
Local Abbreviation closeAll := (Registry.closeAll close_rejects).
Local Abbreviation closeAll_enter := (Registry.closeAll_enter close_rejects).

(** X1.  The configuration is never touched: [has], [names],
    [getConnection], [getPrefix] and [testing] answer after every
    sequence of calls, [closeAll] included, what they answered before. *)
Theorem accessors_stable st ops name :
  has name (run ops st) = has name st
  /\ names (run ops st) = names st
  /\ getConnection (run ops st) = getConnection st
  /\ getPrefix (run ops st) = getPrefix st
  /\ testing (run ops st) = testing st.
Proof.
  pose proof (RegistryFacts.run_config close_rejects ops st) as Hcfg.
  unfold has, names, getConnection, getPrefix, testing. by rewrite Hcfg.
Qed.

(** What a [get] that has to build the managed queue does. *)
Lemma get_builds name st qc :
  closed st = false -> managed st !! name = None ->
  queues_lookup name (queues (config st)) = Some qc ->
  exists mq st1,
    get name st = (inr mq, st1)
    /\ config st1 = config st
    /\ closed st1 = false
    /\ pending st1 = pending st
    /\ managed st1 = <[name := mq]> (managed st)
    /\ log st1 = log st ++ [ECreate name mq]
    /\ built_from (config st) name qc mq
    /\ NoDup (entry_refs mq)
    /\ forall r, r ∈ entry_refs mq -> (next_ref st <= r < next_ref st1)%nat.
Proof.
  intros Hc Hm Hq. unfold get. rewrite Hc, Hm, Hq.
  unfold createTestEntry, createEntry, built_from, entry_refs.
  destruct (truthy (testing_flag (config st))) eqn:Ht;
    destruct (processor qc) as [p|] eqn:Hp;
    (eexists _, _; split; [reflexivity|]; simpl; rewrite ?Hc, ?Hp;
     split_and!; try done;
     lazymatch goal with
     | |- forall _, Some _ = Some _ -> _ =>
         intros p' [= <-]; eexists; split_and!; done
     | |- NoDup _ =>
         rewrite !NoDup_cons, !elem_of_cons, !elem_of_nil;
         split_and!; try apply NoDup_nil_2; lia
     | |- forall _, _ ∈ _ -> _ =>
         intros r; rewrite !elem_of_cons, elem_of_nil; lia
     end).
Qed.

Lemma shaped_new cfg st : new cfg = inr st -> shaped st.
Proof.
  unfold new. case_match eqn:Hn; [done|]. intros [= <-].
  split; simpl; try done.
  intros Ht. rewrite Ht in Hn. simpl in Hn.
  by apply negb_false_iff, bool_decide_eq_true in Hn.
Qed.

Lemma shaped_get name st : shaped st -> shaped (snd (get name st)).
Proof.
  intros S. destruct (closed st) eqn:Hc;
    [by rewrite RegistryFacts.get_closed|].
  destruct (managed st !! name) as [mq0|] eqn:Hm.
  { unfold get. by rewrite Hc, Hm. }
  destruct (queues_lookup name (queues (config st))) as [qc|] eqn:Hq.
  2: { unfold get. by rewrite Hc, Hm, Hq. }
  destruct (get_builds name st qc Hc Hm Hq)
    as (mq & st1 & -> & Hcfg & Hc1 & _ & Hm1 & Hl & Hb & Hnd & Hr).
  simpl. split.
  - intros n mq'. rewrite Hm1, Hcfg.
    intros [[<- <-]|[_ H]]%lookup_insert_Some; [by exists qc|].
    by apply (shaped_built _ S).
  - intros n mq' r. rewrite Hm1.
    intros [[<- <-]|[_ H]]%lookup_insert_Some Hin; [by apply Hr|].
    pose proof (shaped_bound _ S n mq' r H Hin).
    destruct (entry_refs mq) as [|r0 l] eqn:He; [by apply NoDup_nil in Hnd; destruct mq; simpl in *|].
    pose proof (Hr r0 (list_elem_of_here _ _)). lia.
  - intros n1 n2 mq1 mq2 r Hne. rewrite Hm1.
    intros [[<- <-]|[_ H1]]%lookup_insert_Some
           [[<- <-]|[_ H2]]%lookup_insert_Some Hin1 Hin2; try done.
    + pose proof (shaped_bound _ S n2 mq2 r H2 Hin2).
      pose proof (Hr r Hin1). lia.
    + pose proof (shaped_bound _ S n1 mq1 r H1 Hin1).
      pose proof (Hr r Hin2). lia.
    + by apply (shaped_apart _ S n1 n2 mq1 mq2 r).
  - intros n mq'. rewrite Hm1.
    intros [[<- <-]|[_ H]]%lookup_insert_Some; [done|].
    by apply (shaped_nodup _ S n).
  - rewrite Hcfg. apply (shaped_connected _ S).
  - intros _. rewrite Hl. apply Forall_app. split.
    + by apply (shaped_log _ S).
    + by repeat constructor.
Qed.

Lemma shaped_closeAll_enter st : shaped st -> shaped (snd (closeAll_enter st)).
Proof.
  intros S. split; try done; try apply S.
Qed.

Lemma shaped_settle st awaited :
  shaped st -> shaped (snd (closeAll_resume awaited st)).
Proof.
  intros S. destruct awaited; split; simpl; try done; try apply S.
Qed.

Lemma shaped_step st o : shaped st -> shaped (step st o).
Proof.
  intros S. destruct o; simpl; try done.
  - by apply shaped_get.
  - destruct (closed st) eqn:Hc; [by rewrite RegistryFacts.closeAll_twice|].
    rewrite RegistryFacts.closeAll_open by done.
    by apply shaped_settle, shaped_closeAll_enter.
  - destruct (closed st); [done|]. by apply shaped_closeAll_enter.
  - destruct (pending st) as [closeOps|]; [|done].
    by apply (shaped_settle st (allSettled closeOps)).
Qed.

Lemma shaped_run ops st : shaped st -> shaped (run ops st).
Proof.
  revert st. induction ops as [|o ops IH]; intros st S; [done|].
  simpl. apply IH. by apply shaped_step.
Qed.

Lemma get_returns_managed name st h :
  fst (get name st) = inr h -> managed (snd (get name st)) !! name = Some h.
Proof.
  intros H. destruct (get name st) as [r st1] eqn:E. simpl in *. subst r.
  by apply RegistryFacts.get_ok_managed in E as (_ & _ & ?).
Qed.

(** Spreading [src] over [o]: a key of [src] reads as in [src], every
    other key as in [o]. *)
Lemma opts_get_set k k' v o :
  opts_get k (opts_set k' v o) = if decide (k = k') then Some v else opts_get k o.
Proof.
  unfold opts_get. induction o as [|[k0 v0] o IH]; simpl.
  - destruct (decide (k = k')) as [->|Hk].
    + by rewrite bool_decide_eq_true_2.
    + by rewrite bool_decide_eq_false_2.
  - destruct (decide (k0 = k')) as [->|Hk0]; simpl.
    + destruct (decide (k = k')) as [->|Hk].
      * by rewrite bool_decide_eq_true_2.
      * by rewrite !(bool_decide_eq_false_2 (k' = k)).
    + case_bool_decide as Hk; [|done]. simpl.
      rewrite decide_False; [done|congruence].
Qed.

Lemma opts_get_cons k k' v o :
  opts_get k ((k', v) :: o) = if decide (k = k') then Some v else opts_get k o.
Proof.
  unfold opts_get. simpl. destruct (decide (k = k')) as [->|Hk].
  - by rewrite bool_decide_eq_true_2.
  - by rewrite bool_decide_eq_false_2 by congruence.
Qed.

Lemma opts_get_absent k (o : options) : k ∉ fst <$> o -> opts_get k o = None.
Proof.
  induction o as [|[k' v] o IH]; [done|].
  rewrite fmap_cons, not_elem_of_cons, opts_get_cons. simpl.
  intros [Hk Ho]. rewrite decide_False by done. by apply IH.
Qed.

Lemma opts_get_spread k o src :
  NoDup (fst <$> src) ->
  opts_get k (spread o src)
  = match opts_get k src with Some v => Some v | None => opts_get k o end.
Proof.
  unfold spread. revert o. induction src as [|[k' v'] src IH]; intros o Hnd;
    [done|].
  apply NoDup_cons in Hnd as [Hk' Hnd]. cbn [fold_left fst snd].
  rewrite IH, opts_get_set, opts_get_cons by done.
  destruct (decide (k = k')) as [->|Hk]; [|done].
  by rewrite (opts_get_absent k' src).
Qed.

(** X2.  A handle that [get] returns is built from what [queues[name]]
    reads, an own property or an inherited one: the queue carries the
    name and the mode of the registry, and a worker is there exactly when
    a processor is configured, running that processor under that name.
    In testing mode the worker is given the configured concurrency, or 1,
    and nothing else.  Outside testing mode the connection that the
    constructor insisted on is there, the queue is given it and the
    prefix, and the worker's options read as [workerOpts] wherever
    [workerOpts] has the key, [concurrency], [connection] and [prefix]
    included, and otherwise as the connection, the prefix and the
    configured concurrency, or 1. *)
Theorem get_builds_from_config cfg st0 ops name h :
  new cfg = inr st0 ->
  fst (get name (run ops st0)) = inr h ->
  exists qc,
    queues_lookup name (queues cfg) = Some qc
    /\ q_name (queue h) = name
    /\ q_test (queue h) = truthy (testing_flag cfg)
    /\ (is_Some (worker h) <-> is_Some (processor qc))
    /\ (forall w, worker h = Some w ->
          processor qc = Some (w_processor w)
          /\ w_name w = name
          /\ w_test w = truthy (testing_flag cfg))
    /\ (truthy (testing_flag cfg) = true ->
        forall w, worker h = Some w ->
          w_opts w
          = [("concurrency", VJson (JNum (default 1 (concurrency qc))))])
    /\ (truthy (testing_flag cfg) = false ->
        is_Some (connection cfg)
        /\ q_connection (queue h) = connection cfg
        /\ q_prefix (queue h) = prefix cfg
        /\ forall w, worker h = Some w ->
             NoDup (fst <$> of_workerOpts (workerOpts qc)) ->
             forall k,
               opts_get k (w_opts w)
               = match opts_get k (of_workerOpts (workerOpts qc)) with
                 | Some v => Some v
                 | None =>
                     opts_get k
                       [("connection", of_connection (connection cfg));
                        ("prefix", of_prefix (prefix cfg));
                        ("concurrency",
                         VJson (JNum (default 1 (concurrency qc))))]
                 end).
Proof.
  intros Hnew Hget.
  pose proof (shaped_get name _ (shaped_run ops _ (shaped_new _ _ Hnew))) as S.
  pose proof (get_returns_managed _ _ _ Hget) as Hm.
  destruct (shaped_built _ S name h Hm) as (qc & Hq & Hb).
  pose proof (shaped_connected _ S) as Hconn.
  assert (config (snd (get name (run ops st0))) = cfg) as Hcfg.
  { change (config (step (run ops st0) (Get name)) = cfg).
    by rewrite RegistryFacts.step_config, RegistryFacts.run_config,
         (RegistryFacts.new_config _ _ Hnew). }
  rewrite Hcfg in *. exists qc. split; [done|].
  destruct Hb as (Hn & Ht & Hc & Hp & Hnone & Hsome).
  assert (forall w, worker h = Some w ->
            processor qc = Some (w_processor w)
            /\ w_name w = name
            /\ w_test w = truthy (testing_flag cfg)
            /\ w_opts w
               = (if truthy (testing_flag cfg)
                  then [("concurrency",
                         VJson (JNum (default 1 (concurrency qc))))]
                  else spread
                         [("connection", of_connection (connection cfg));
                          ("prefix", of_prefix (prefix cfg));
                          ("concurrency",
                           VJson (JNum (default 1 (concurrency qc))))]
                         (of_workerOpts (workerOpts qc)))) as Hw.
  { intros w Hw. destruct (processor qc) as [p|] eqn:Hproc.
    - destruct (Hsome p eq_refl) as (w' & Hw' & Hwn & Hwp & Hwt & Hwo).
      rewrite Hw in Hw'. injection Hw' as <-. by rewrite Hwp.
    - rewrite Hnone in Hw by done. done. }
  split; [done|]. split; [done|]. split; [|split; [|split]].
  - destruct (processor qc) as [p|] eqn:Hproc.
    + destruct (Hsome p eq_refl) as (w & -> & _). split; eauto.
    + rewrite Hnone by done. split; intros [? ?]; done.
  - intros w Hwk. destruct (Hw w Hwk) as (? & ? & ? & _). done.
  - intros Htest w Hwk. destruct (Hw w Hwk) as (_ & _ & _ & Ho).
    by rewrite Htest in Ho.
  - intros Hlive. rewrite Hlive in *.
    split; [by apply Hconn|]. split; [done|]. split; [done|].
    intros w Hwk Hnd k. destruct (Hw w Hwk) as (_ & _ & _ & ->).
    by apply opts_get_spread.
Qed.

(** X3.  The handles of two different names share no object: the queue,
    the worker and the handle of the one are all different from those of
    the other, and within one handle they differ as well. *)
Theorem handles_share_no_object cfg st0 ops n1 n2 h1 h2 :
  new cfg = inr st0 ->
  n1 <> n2 ->
  fst (get n1 (run ops st0)) = inr h1 ->
  fst (get n2 (snd (get n1 (run ops st0)))) = inr h2 ->
  NoDup (entry_refs h1)
  /\ NoDup (entry_refs h2)
  /\ (forall r, r ∈ entry_refs h1 -> r ∉ entry_refs h2)
  /\ h1 <> h2.
Proof.
  intros Hnew Hne H1 H2.
  pose proof (shaped_get n1 _ (shaped_run ops _ (shaped_new _ _ Hnew))) as S1.
  pose proof (shaped_get n2 _ S1) as S2.
  pose proof (get_returns_managed _ _ _ H1) as Hm1.
  pose proof (get_returns_managed _ _ _ H2) as Hm2.
  set (st1 := snd (get n1 (run ops st0))) in *.
  assert (managed (snd (get n2 st1)) !! n1 = Some h1) as Hm1'.
  { destruct (closed st1) eqn:Hc;
      [by rewrite RegistryFacts.get_closed in H2|].
    destruct (RegistryFacts.get_open_cases n2 st1 Hc)
      as [(mq & _ & E)|[(_ & _ & E)
         |(qc & mq & st2 & _ & _ & E & _ & _ & _ & Hins & _)]];
      rewrite E in *; simpl in *; try done.
    rewrite Hins. by rewrite lookup_insert_ne by done. }
  assert (forall r, r ∈ entry_refs h1 -> r ∉ entry_refs h2) as Hapart.
  { intros r. by apply (shaped_apart _ S2 n1 n2). }
  split; [by apply (shaped_nodup _ S2 n1)|].
  split; [by apply (shaped_nodup _ S2 n2)|]. split; [done|].
  intros ->. apply (Hapart (q_ref (queue h2))); unfold entry_refs; by left.
Qed.





(** X5.  [has] accepts the keys of the definitions and the names every
    object inherits, "constructor" among them.  On an open registry [get]
    succeeds for exactly the names that [has] accepts; a [get] that fails
    leaves the registry as it was; and only names that [has] accepts are
    ever instantiated. *)
Theorem get_succeeds_iff_has cfg st0 ops name :
  new cfg = inr st0 ->
  (has name (run ops st0) = true
   <-> name ∈ names (run ops st0) \/ name ∈ Object_prototype)
  /\ (closed (run ops st0) = false ->
      (exists h, fst (get name (run ops st0)) = inr h)
      <-> has name (run ops st0) = true)
  /\ (forall err, fst (get name (run ops st0)) = inl err ->
                  snd (get name (run ops st0)) = run ops st0)
  /\ (is_Some (managed (run ops st0) !! name) ->
      has name (run ops st0) = true).
Proof.
  intros Hnew.
  pose proof (RegistryFacts.inv_run close_rejects ops _
                (RegistryFacts.inv_new _ _ Hnew)) as I.
  set (st := run ops st0) in *.
  assert (is_Some (managed st !! name) -> has name st = true) as Hdom.
  { intros [mq Hm]. unfold has. apply bool_decide_eq_true.
    by apply (inv_managed_configured _ I name mq). }
  split; [|split; [|split; [|done]]].
  - unfold has, names. rewrite bool_decide_eq_true.
    apply RegistryFacts.queues_lookup_is_Some.
  - intros Hc. unfold has. rewrite bool_decide_eq_true.
    destruct (RegistryFacts.get_open_cases name st Hc)
      as [(mq & Hm & E)|[(_ & Hq & E)
         |(qc & mq & st1 & _ & Hq & E & _)]]; rewrite E; simpl.
    + split; [intros _|by eauto].
      by apply (inv_managed_configured _ I name mq).
    + rewrite Hq. split; [by intros [? ?]|by intros ?%is_Some_None].
    + rewrite Hq. split; eauto.
  - intros err. destruct (closed st) eqn:Hc;
      [by rewrite RegistryFacts.get_closed|].
    destruct (RegistryFacts.get_open_cases name st Hc)
      as [(mq & Hm & E)|[(_ & Hq & E)
         |(qc & mq & st1 & _ & Hq & E & _)]]; by rewrite E.
Qed.

End Facts.

(** The worker of "emails" in a registry whose [workerOpts] set a
    concurrency of their own: the worker runs with that one. *)
Lemma get_builds_from_config_witness :
  exists h w,
    fst (get "emails" (run (fun _ => false) [Has "emails"] Examples.tuned_fresh))
    = inr h
    /\ worker h = Some w
    /\ opts_get "concurrency" (w_opts w) = Some (VJson (JNum 10))
    /\ opts_get "connection" (w_opts w)
       = Some (VConnection Scenario.localhost).
Proof.
  assert (exists h w,
            fst (get "emails"
                   (run (fun _ => false) [Has "emails"] Examples.tuned_fresh))
            = inr h
            /\ worker h = Some w) as (h & w & Hget & Hwk)
    by (eexists _, _; split; vm_compute; reflexivity).
  destruct (get_builds_from_config (fun _ => false) Examples.tuned_config
              Examples.tuned_fresh [Has "emails"] "emails" h eq_refl Hget)
    as (qc & Hq & _ & _ & _ & _ & _ & Hlive).
  assert (qc = {| processor := Some Examples.send_email;
                  concurrency := Some 5;
                  workerOpts := Some [("concurrency", JNum 10);
                                      ("lockDuration", JNum 30000)] |}) as ->
    by (vm_compute in Hq; injection Hq as <-; reflexivity).
  destruct (Hlive eq_refl) as (_ & _ & _ & Hopts).
  assert (NoDup (fst <$> of_workerOpts
                           (Some [("concurrency", JNum 10);
                                  ("lockDuration", JNum 30000)]))) as Hnd
    by (apply (bool_decide_unpack _); vm_compute; exact I).
  exists h, w. split; [exact Hget|]. split; [exact Hwk|].
  split; [exact (Hopts w Hwk Hnd "concurrency")
         |exact (Hopts w Hwk Hnd "connection")].
Defined.

Lemma handles_share_no_object_witness :
  exists h1 h2,
    fst (get "emails" (run (fun _ => false) [Has "emails"] Examples.live_fresh))
    = inr h1
    /\ fst (get "reports"
              (snd (get "emails"
                      (run (fun _ => false) [Has "emails"] Examples.live_fresh))))
       = inr h2
    /\ (forall r, r ∈ entry_refs h1 -> r ∉ entry_refs h2)
    /\ h1 <> h2.
Proof.
  eexists _, _.
  split; [vm_compute; reflexivity|]. split; [vm_compute; reflexivity|].
  refine (proj2 (proj2 (handles_share_no_object (fun _ => false)
                          Examples.live_config Examples.live_fresh
                          [Has "emails"] "emails" "reports" _ _ _ _ _ _)));
    [reflexivity|discriminate|vm_compute; reflexivity..].
Defined.


(** "constructor" is no key of the live registry, yet [has] accepts it
    and [get] returns a handle for it. *)
Lemma get_succeeds_iff_has_witness :
  new Examples.live_config = inr Examples.live_fresh
  /\ closed (run (fun _ => false) [Get "emails"] Examples.live_fresh) = false
  /\ has "constructor"
       (run (fun _ => false) [Get "emails"] Examples.live_fresh) = true
  /\ exists h,
       fst (get "constructor"
              (run (fun _ => false) [Get "emails"] Examples.live_fresh))
       = inr h.
Proof.
  assert (closed (run (fun _ => false) [Get "emails"] Examples.live_fresh)
          = false) as Hc by (vm_compute; reflexivity).
  assert ("constructor" ∈ Object_prototype) as Hp
    by (apply (bool_decide_unpack _); vm_compute; exact I).
  destruct (get_succeeds_iff_has (fun _ => false) Examples.live_config
              Examples.live_fresh [Get "emails"] "constructor" eq_refl)
    as (Hhas & Hget & _).
  split; [reflexivity|]. split; [exact Hc|].
  split; [exact (proj2 Hhas (or_intror Hp))|].
  exact (proj2 (Hget Hc) (proj2 Hhas (or_intror Hp))).
Defined.

End RegistryMore.

(** ** More facts about the shared subscriptions and the live sessions *)

Module EventsMore.
Import Events Holders Forwarding Counting EventsFacts.

Lemma count_call_refcount name w k o :
  0 <= k ->
  refCount <$> subscriptions w !! name
  = (if decide (k = 0) then None else Some k) ->
  0 <= count_call name k o
  /\ refCount <$> subscriptions (mux_step w o) !! name
     = (if decide (count_call name k o = 0) then None
        else Some (count_call name k o)).
Proof.
  intros Hk Hw. destruct o as [n c p|n]; simpl.
  - unfold acquireQueueEvents. destruct (decide (n = name)) as [->|Hn].
    + split; [lia|]. rewrite (decide_False (P := k + 1 = 0)) by lia.
      destruct (subscriptions w !! name) as [e|] eqn:He; simpl in *;
        rewrite lookup_insert_eq; simpl.
      * destruct (decide (k = 0)); [done|]. by injection Hw as ->.
      * destruct (decide (k = 0)) as [->|]; done.
    + split; [done|].
      destruct (subscriptions w !! n) as [e|]; simpl;
        by rewrite lookup_insert_ne.
  - unfold releaseQueueEvents. destruct (decide (n = name)) as [->|Hn].
    + split; [lia|].
      destruct (subscriptions w !! name) as [e|] eqn:He; simpl in *.
      * destruct (decide (k = 0)); [done|]. injection Hw as Hw.
        destruct (refCount e - 1 <=? 0) eqn:Hrc; simpl.
        -- apply Z.leb_le in Hrc. rewrite lookup_delete_eq.
           rewrite decide_True by lia. done.
        -- apply Z.leb_gt in Hrc. rewrite lookup_insert_eq. simpl.
           rewrite decide_False by lia. f_equal. lia.
      * destruct (decide (k = 0)) as [->|]; [|done]. rewrite He. done.
    + split; [done|].
      destruct (subscriptions w !! n) as [e|]; [|done].
      destruct (refCount e - 1 <=? 0); simpl.
      * by rewrite lookup_delete_ne.
      * by rewrite lookup_insert_ne.
Qed.

(** X6.  In every history of acquires and releases the count of the
    entry of a name is the number of its acquires that no release has
    matched yet (a release with nothing to release counts for nothing),
    and the name has no entry exactly when that number is 0. *)
Theorem refcount_counts_holders ops name :
  0 <= holders name ops
  /\ refCount <$> subscriptions (mux_run ops empty_world) !! name
     = (if decide (holders name ops = 0) then None
        else Some (holders name ops)).
Proof.
  unfold holders, mux_run.
  assert (forall w k,
            0 <= k ->
            refCount <$> subscriptions w !! name
            = (if decide (k = 0) then None else Some k) ->
            0 <= fold_left (count_call name) ops k
            /\ refCount <$> subscriptions (fold_left mux_step ops w) !! name
               = (if decide (fold_left (count_call name) ops k = 0) then None
                  else Some (fold_left (count_call name) ops k))) as H.
  { induction ops as [|o ops IH]; intros w k Hk Hw; [done|].
    simpl. destruct (count_call_refcount name w k o Hk Hw) as [Hk' Hw'].
    by apply IH. }
  apply H; [done|]. simpl. by rewrite lookup_empty.
Qed.

(** *** Forwarding *)

Section Emit.

Variables (eventType : string) (args : list (string * json)).

Local Abbreviation deliver :=
  (fun w (l : Listener) =>
     if decide (fst l = eventType) then handler (snd l) args w else w).

(** Listeners of other sessions, or for other events, leave the session
    alone. *)
Lemma emit_skip (ls : list Listener) w sid :
  (forall l, l ∈ ls -> fst l = eventType -> h_session (snd l) <> sid) ->
  sessions (foldl deliver w ls) !! sid = sessions w !! sid.
Proof.
  revert w. induction ls as [|l ls IH]; intros w Hls; [done|].
  simpl. rewrite IH by (intros l' Hl'; apply Hls; by right).
  case_decide as Hty; [|done].
  unfold handler. simpl. rewrite list_lookup_alter_ne; [done|].
  apply Hls; [by left|done].
Qed.

Lemma emit_heap (ls : list Listener) w :
  heap (foldl deliver w ls) = heap w
  /\ subscriptions (foldl deliver w ls) = subscriptions w.
Proof.
  revert w. induction ls as [|l ls IH]; intros w; [done|].
  simpl. destruct (IH (deliver w l)) as [-> ->]. by case_decide.
Qed.

(** What an emitted event does to one session. *)
Lemma emit_session w source sid s :
  wf w -> sessions w !! sid = Some s ->
  sessions (emit source eventType args w) !! sid
  = Some (if decide (listens source eventType s)
          then writeSSE eventType
                 (JObj (obj_set "queue" (JStr (s_name s)) args)) s
          else s).
Proof.
  intros W E.
  set (x := (eventType, {| h_session := sid; h_event := eventType |}) : Listener).
  assert (forall ls, listeners_at w source = Some ls ->
            forall l, l ∈ ls -> fst l = eventType -> h_session (snd l) = sid ->
                      l = x) as Hx.
  { intros ls Hls l Hl Hty Hsid.
    destruct (wf_listener _ W source ls l Hls Hl) as (s0 & E0 & _ & _ & Hin).
    rewrite Hsid, E in E0. injection E0 as <-.
    rewrite (wf_own _ W sid s E) in Hin.
    apply list_elem_of_fmap in Hin as (ty & -> & _). simpl in Hty. by subst ty. }
  assert (forall ls, listeners_at w source = Some ls ->
            x ∈ ls <-> ended s = false /\ s_queueEvents s = source
                       /\ eventType ∈ eventTypes) as Hin.
  { intros ls Hls. split.
    - intros Hl.
      destruct (wf_listener _ W source ls x Hls Hl) as (s0 & E0 & He & Hq & Hl0).
      simpl in E0. rewrite E in E0. injection E0 as <-.
      split; [done|]. split; [done|].
      rewrite (wf_own _ W sid s E) in Hl0.
      apply list_elem_of_fmap in Hl0 as (ty & [= -> _] & Hty). done.
    - intros (He & Hq & Hty).
      destruct (wf_attached _ W sid s E He) as (ls' & Hls' & Hsub).
      rewrite Hq, Hls in Hls'. injection Hls' as <-.
      apply Hsub. rewrite (wf_own _ W sid s E).
      by apply (list_elem_of_fmap_2
                  (fun ty => (ty, {| h_session := sid; h_event := ty |}))). }
  unfold emit. destruct (heap w !! source) as [qe|] eqn:Hqe.
  2: { rewrite E. f_equal. rewrite decide_False; [done|].
       intros (He & _ & Hq & _).
       destruct (wf_attached _ W sid s E He) as (ls' & Hls' & _).
       unfold listeners_at in Hls'. by rewrite Hq, Hqe in Hls'. }
  assert (listeners_at w source = Some (qe_listeners qe)) as Hls
    by (unfold listeners_at; by rewrite Hqe).
  specialize (Hx _ Hls). specialize (Hin _ Hls).
  pose proof (wf_nodup _ W source _ Hls) as Hnd.
  destruct (decide (x ∈ qe_listeners qe)) as [Hmem|Hmem].
  - apply list_elem_of_split in Hmem as (l1 & l2 & Hsplit).
    rewrite Hsplit in Hnd, Hx. rewrite Hsplit.
    apply NoDup_app in Hnd as (_ & Hl1 & [Hl2 _]%NoDup_cons).
    rewrite foldl_app. simpl. rewrite decide_True by done.
    rewrite emit_skip.
    2: { intros l Hl Hty Hsid. apply Hl2.
         rewrite <- (Hx l); [done| |done|done].
         apply elem_of_app. right. by right. }
    unfold handler. simpl. rewrite list_lookup_alter_eq.
    rewrite emit_skip.
    2: { intros l Hl Hty Hsid. apply (Hl1 l Hl).
         rewrite (Hx l); [by left| |done|done].
         apply elem_of_app. by left. }
    rewrite E. simpl. f_equal.
    assert (x ∈ l1 ++ x :: l2) as Hmem
      by (apply elem_of_app; right; by left).
    rewrite <- Hsplit in Hmem. apply Hin in Hmem as (He & Hq & Hty).
    destruct (running s) eqn:Hr.
    + by rewrite decide_True.
    + rewrite decide_False; [done|]. intros (_ & ? & _). congruence.
  - rewrite emit_skip.
    2: { intros l Hl Hty Hsid. apply Hmem. by rewrite <- (Hx l). }
    rewrite E. f_equal. rewrite decide_False; [done|].
    intros (He & _ & Hq & Hty). apply Hmem, Hin. done.
Qed.

End Emit.

(** X7.  In every history, an event that the engine emits on a source is
    forwarded once to every session that streams from that source, has
    not ended and whose client has not gone away, if its type is one of
    the six that sessions listen to: such a session writes one message
    with the type as event name, the event's fields with [queue] set to
    the queue name as data, and its next identifier.  Every other
    session, the sources and the subscriptions stay as they are. *)
Theorem emit_forwards_once evs source eventType args sid s :
  sessions (run evs empty_world) !! sid = Some s ->
  sessions (step (run evs empty_world) (Emit source eventType args)) !! sid
  = Some (if decide (listens source eventType s)
          then writeSSE eventType
                 (JObj (obj_set "queue" (JStr (s_name s)) args)) s
          else s)
  /\ heap (step (run evs empty_world) (Emit source eventType args))
     = heap (run evs empty_world)
  /\ subscriptions (step (run evs empty_world) (Emit source eventType args))
     = subscriptions (run evs empty_world).
Proof.
  intros E. pose proof (wf_run evs _ wf_empty) as W.
  split; [by apply emit_session|].
  simpl. unfold emit.
  destruct (heap (run evs empty_world) !! source) as [qe|]; [|done].
  apply emit_heap.
Qed.

(** X8.  The payload of a forwarded event: [queue] reads as the queue
    name, also when the event had a [queue] field of its own, and every
    other field reads as in the event. *)
Theorem forwarded_payload (args : list (string * json)) (name k : string) :
  obj_get "queue" (obj_set "queue" (JStr name) args) = Some (JStr name)
  /\ (k <> "queue" ->
      obj_get k (obj_set "queue" (JStr name) args) = obj_get k args)
  /\ length (obj_set "queue" (JStr name) args)
     = match obj_get "queue" args with
       | Some _ => length args
       | None => S (length args)
       end.
Proof.
  unfold obj_get. induction args as [|[k' v'] args (IH1 & IH2 & IH3)].
  - simpl. split; [done|]. split; [|done]. intros Hk.
    case_bool_decide; [by subst|done].
  - cbn [obj_set List.find fst snd length].
    destruct (decide (k' = "queue")) as [->|Hk'].
    + cbn [List.find fst snd length]. rewrite bool_decide_eq_true_2 by done.
      split; [done|]. split; [|done]. intros Hk.
      by rewrite !(bool_decide_eq_false_2 ("queue" = k)) by done.
    + cbn [List.find fst snd length].
      rewrite !(bool_decide_eq_false_2 (k' = "queue")) by done.
      split; [apply IH1|]. split.
      * intros Hk. case_bool_decide; [done|]. by apply IH2.
      * rewrite IH3. by case_match.
Qed.

(** *** The life of one session *)











(** *** The subscriptions and the sessions that hold them *)

Lemma live_on_snoc name l s :
  live_on name (l ++ [s]) = (live_on name l + counts_on name s)%nat.
Proof.
  unfold live_on, counts_on. rewrite filter_app, length_app. f_equal.
  rewrite filter_cons, filter_nil. by case_decide.
Qed.

Lemma live_on_alter name f l i s :
  l !! i = Some s ->
  (live_on name (alter f i l) + counts_on name s
   = live_on name l + counts_on name (f s))%nat.
Proof.
  unfold live_on, counts_on. revert i.
  induction l as [|x l IH]; intros [|i] Hi; simplify_eq/=.
  - rewrite !filter_cons. repeat case_decide; simpl; lia.
  - specialize (IH i Hi). rewrite !filter_cons.
    repeat case_decide; simpl in *; lia.
Qed.

Lemma live_on_alter_same name f l i :
  (forall s, l !! i = Some s -> holding (f s) = holding s) ->
  live_on name (alter f i l) = live_on name l.
Proof.
  intros Hf. destruct (l !! i) as [s|] eqn:Hi.
  - pose proof (live_on_alter name f l i s Hi) as H.
    assert (counts_on name (f s) = counts_on name s) as Hc.
    { specialize (Hf s eq_refl). unfold holding in Hf.
      injection Hf as He Hn _. unfold counts_on. by rewrite He, Hn. }
    lia.
  - f_equal. apply list_eq. intros j. rewrite list_lookup_alter.
    case_decide; [subst j; by rewrite Hi|done].
Qed.

Lemma live_on_pos name l i s :
  l !! i = Some s -> ended s = false -> s_name s = name ->
  (1 <= live_on name l)%nat.
Proof.
  intros Hi He Hn.
  pose proof (live_on_alter name (set_phase (Ended false)) l i s Hi) as H.
  unfold counts_on in H at 1. rewrite decide_True in H by done.
  unfold counts_on in H. rewrite decide_False in H; [lia|].
  by intros [? _].
Qed.

Lemma accounted_empty : accounted empty_world.
Proof. split; intros *; simpl; try done. Qed.

(** A change of one session that the subscriptions do not see. *)
Lemma accounted_on_session sid f w :
  (forall s, sessions w !! sid = Some s -> holding (f s) = holding s) ->
  accounted w -> accounted (on_session sid f w).
Proof.
  intros Hf A. split; simpl.
  - intros name. rewrite live_on_alter_same by done. apply (acc_count _ A).
  - intros i s sub. rewrite list_lookup_alter. case_decide as Hi.
    + subst i. destruct (sessions w !! sid) as [s0|] eqn:E; [|done].
      simpl. intros [= <-]. specialize (Hf s0 eq_refl).
      unfold holding in Hf. injection Hf as He Hn Hq.
      rewrite He, Hn, Hq. by apply (acc_source _ A sid).
    + apply (acc_source _ A).
  - apply (acc_open _ A).
  - apply (acc_once _ A).
Qed.

(** A change of one source that the subscriptions do not see. *)
Lemma accounted_on_source o f w :
  (forall qe, standing (f qe) = standing qe) ->
  accounted w -> accounted (on_source o f w).
Proof.
  intros Hf A.
  assert (forall o', standing <$> alter f o (heap w) !! o'
                     = standing <$> heap w !! o') as Hst.
  { intros o'. rewrite list_lookup_alter. case_decide; [subst o'|done].
    destruct (heap w !! o); [|done]. simpl. by rewrite Hf. }
  split; simpl.
  - apply (acc_count _ A).
  - apply (acc_source _ A).
  - intros name sub Hsub.
    destruct (acc_open _ A name sub Hsub) as (qe & Hqe & Hn & Hc).
    specialize (Hst (queueEvents sub)). rewrite Hqe in Hst.
    destruct (alter f o (heap w) !! queueEvents sub) as [qe'|]; [|done].
    exists qe'. split; [done|]. unfold standing in Hst. simpl in Hst.
    injection Hst as -> ->. done.
  - intros o' qe' Hqe'. specialize (Hst o'). rewrite Hqe' in Hst.
    destruct (heap w !! o') as [qe|] eqn:Hqe; [|done].
    unfold standing in Hst. simpl in Hst. injection Hst as _ ->.
    by apply (acc_once _ A o').
Qed.

Lemma accounted_emit source eventType args w :
  accounted w -> accounted (emit source eventType args w).
Proof.
  unfold emit. destruct (heap w !! source) as [qe|]; [|done].
  generalize (qe_listeners qe). intros ls. revert w.
  induction ls as [|l ls IH]; intros w A; [done|].
  simpl. apply IH. case_decide; [|done].
  apply accounted_on_session; [|done]. intros s _. by destruct (running s).
Qed.

(** A request: the acquire and the new session together. *)
Lemma accounted_open name conn prefix w fresh :
  accounted w ->
  s_name fresh = name -> ended fresh = false ->
  s_queueEvents fresh = fst (acquireQueueEvents name conn prefix w) ->
  accounted (set_sessions (sessions w ++ [fresh])
               (snd (acquireQueueEvents name conn prefix w))).
Proof.
  intros A Hn He Hq.
  pose proof (acc_count _ A name) as Hk.
  assert (counts_on name fresh = 1%nat) as Hc1
    by (unfold counts_on; by rewrite decide_True).
  assert (forall m, m <> name -> counts_on m fresh = 0%nat) as Hc0.
  { intros m Hm. unfold counts_on. rewrite decide_False; [done|].
    intros [_ ?]. congruence. }
  unfold acquireQueueEvents in *.
  destruct (subscriptions w !! name) as [e|] eqn:Hsub; simpl in *.
  - (* the entry is there *)
    case_decide as Hz; [done|]. injection Hk as Hk.
    split; simpl.
    + intros m. rewrite live_on_snoc. destruct (decide (m = name)) as [->|Hm].
      * rewrite lookup_insert_eq, Hc1. simpl.
        rewrite decide_False by lia. f_equal. lia.
      * rewrite lookup_insert_ne, Hc0, Nat.add_0_r by done.
        apply (acc_count _ A).
    + intros i s sub Hi Hen Hs.
      apply lookup_app_Some in Hi as [Hi|[_ Hi]].
      * destruct (decide (s_name s = name)) as [Hsn|Hsn].
        -- rewrite Hsn, lookup_insert_eq in Hs. injection Hs as <-. simpl.
           apply (acc_source _ A i s e Hi Hen). by rewrite Hsn.
        -- rewrite lookup_insert_ne in Hs by done.
           by apply (acc_source _ A i).
      * destruct (i - length (sessions w))%nat; [|by destruct n].
        simpl in Hi. injection Hi as <-.
        rewrite Hn, lookup_insert_eq in Hs. injection Hs as <-. by simpl.
    + intros m sub. intros [[<- <-]|[_ H]]%lookup_insert_Some; simpl.
      * by apply (acc_open _ A name).
      * by apply (acc_open _ A m).
    + apply (acc_once _ A).
  - (* the entry is made *)
    case_decide as Hz; [|done]. clear Hk.
    assert (forall i s, sessions w !! i = Some s -> ended s = false ->
              s_name s <> name) as Hnone.
    { intros i s Hi Hen Hsn.
      pose proof (live_on_pos name _ i s Hi Hen Hsn). lia. }
    split; simpl.
    + intros m. rewrite live_on_snoc. destruct (decide (m = name)) as [->|Hm].
      * rewrite lookup_insert_eq, Hc1, Hz. simpl. done.
      * rewrite lookup_insert_ne, Hc0, Nat.add_0_r by done.
        apply (acc_count _ A).
    + intros i s sub Hi Hen Hs.
      apply lookup_app_Some in Hi as [Hi|[_ Hi]].
      * rewrite lookup_insert_ne in Hs by (intros ?; by eapply Hnone).
        by apply (acc_source _ A i).
      * destruct (i - length (sessions w))%nat; [|by destruct n].
        simpl in Hi. injection Hi as <-.
        rewrite Hn, lookup_insert_eq in Hs. injection Hs as <-. by simpl.
    + intros m sub. intros [[<- <-]|[_ H]]%lookup_insert_Some; simpl.
      * eexists. split; [by apply list_lookup_middle|done].
      * destruct (acc_open _ A m sub H) as (qe & Hqe & ?).
        exists qe. split; [|done]. rewrite lookup_app_l; [done|].
        by apply lookup_lt_Some in Hqe.
    + intros o qe [H|[_ H]]%lookup_app_Some; [by apply (acc_once _ A o)|].
      destruct (o - length (heap w))%nat; [|by destruct n].
      simpl in H. injection H as <-. simpl. lia.
Qed.

(** The end of a session: it leaves the count and releases. *)
Lemma accounted_leave sid thrown w s :
  accounted w -> sessions w !! sid = Some s -> ended s = false ->
  accounted (releaseQueueEvents (s_name s)
               (on_session sid
                  (fun s => count_release (set_phase (Ended thrown) s)) w)).
Proof.
  intros A E He.
  set (F := fun s => count_release (set_phase (Ended thrown) s)).
  set (name := s_name s).
  pose proof (live_on_pos name _ sid s E He eq_refl) as Hpos.
  pose proof (acc_count _ A name) as Hk.
  rewrite decide_False in Hk by lia.
  destruct (subscriptions w !! name) as [sub|] eqn:Hsub; [|done].
  simpl in Hk. injection Hk as Hk.
  pose proof (acc_source _ A sid s sub E He Hsub) as Hsrc.
  assert (forall m, (live_on m (alter F sid (sessions w))
                     + counts_on m s = live_on m (sessions w))%nat) as Hlive.
  { intros m. pose proof (live_on_alter m F _ sid s E) as H.
    unfold counts_on in H at 2. rewrite decide_False in H; [lia|].
    by intros [? _]. }
  assert (counts_on name s = 1%nat) as Hc1
    by (unfold counts_on; by rewrite decide_True).
  assert (forall m, m <> name -> counts_on m s = 0%nat) as Hc0.
  { intros m Hm. unfold counts_on. rewrite decide_False; [done|].
    intros [_ ?]. by subst name. }
  assert (forall i s2, alter F sid (sessions w) !! i = Some s2 ->
            ended s2 = false -> i <> sid /\ sessions w !! i = Some s2) as Hold.
  { intros i s2. rewrite list_lookup_alter. case_decide as Hi.
    - subst i. rewrite E. simpl. intros [= <-]. done.
    - intros H _. split; [congruence|done]. }
  unfold releaseQueueEvents. simpl. fold name. rewrite Hsub.
  destruct (refCount sub - 1 <=? 0) eqn:Hrc.
  - (* the last holder: the entry goes and the source is closed *)
    apply Z.leb_le in Hrc.
    assert (live_on name (sessions w) = 1%nat) as H1 by lia.
    destruct (acc_open _ A name sub Hsub) as (qe & Hqe & Hqn & Hqc).
    split; simpl.
    + intros m. destruct (decide (m = name)) as [->|Hm].
      * rewrite lookup_delete_eq. simpl. rewrite decide_True; [done|].
        specialize (Hlive name). lia.
      * rewrite lookup_delete_ne by done.
        specialize (Hlive m). rewrite Hc0, Nat.add_0_r in Hlive by done.
        rewrite Hlive. apply (acc_count _ A).
    + intros i s2 sub2 Hi Hen Hs. destruct (Hold i s2 Hi Hen) as [_ Hi'].
      apply lookup_delete_Some in Hs as [_ Hs].
      by apply (acc_source _ A i).
    + intros m sub2 [Hm Hs]%lookup_delete_Some.
      destruct (acc_open _ A m sub2 Hs) as (qe2 & Hqe2 & Hqn2 & Hqc2).
      exists qe2. split; [|done].
      rewrite list_lookup_alter_ne; [done|].
      intros Heq. rewrite Heq, Hqe2 in Hqe. injection Hqe as <-. congruence.
    + intros o qe2. rewrite list_lookup_alter. case_decide as Ho.
      * subst o. rewrite Hqe. simpl. intros [= <-]. simpl. lia.
      * apply (acc_once _ A).
  - (* other holders remain *)
    apply Z.leb_gt in Hrc.
    split; simpl.
    + intros m. destruct (decide (m = name)) as [->|Hm].
      * rewrite lookup_insert_eq. simpl. specialize (Hlive name).
        rewrite decide_False by lia. f_equal. lia.
      * rewrite lookup_insert_ne by done.
        specialize (Hlive m). rewrite Hc0, Nat.add_0_r in Hlive by done.
        rewrite Hlive. apply (acc_count _ A).
    + intros i s2 sub2 Hi Hen Hs. destruct (Hold i s2 Hi Hen) as [_ Hi'].
      apply lookup_insert_Some in Hs as [[Hn <-]|[_ Hs]]; simpl.
      * apply (acc_source _ A i s2 sub Hi' Hen). by rewrite <- Hn.
      * by apply (acc_source _ A i).
    + intros m sub2 [[<- <-]|[_ Hs]]%lookup_insert_Some; simpl.
      * by apply (acc_open _ A name).
      * by apply (acc_open _ A m).
    + apply (acc_once _ A).
Qed.

Lemma accounted_cleanup sid thrown w s :
  accounted w -> sessions w !! sid = Some s -> ended s = false ->
  accounted (cleanup sid thrown w).
Proof.
  intros A E He. rewrite (cleanup_unfold _ _ _ _ E).
  set (G := fun qe => set_listeners (remove_all (listeners s) (qe_listeners qe)) qe).
  change (accounted
            (releaseQueueEvents (s_name s)
               (on_session sid
                  (fun s => count_release (set_phase (Ended thrown) s))
                  (on_source (s_queueEvents s) G w)))).
  apply (accounted_leave sid thrown (on_source (s_queueEvents s) G w) s);
    [|done|done].
  by apply accounted_on_source.
Qed.

Lemma accounted_loop_head sid now w s :
  accounted w -> sessions w !! sid = Some s -> ended s = false ->
  accounted (loop_head sid now w).
Proof.
  intros A E He. unfold loop_head. rewrite E.
  destruct (running s); [|by eapply accounted_cleanup].
  apply accounted_on_session; [|done].
  intros s' E'. rewrite E in E'. injection E' as <-.
  unfold holding, ended in *. simpl. by destruct (at_phase s).
Qed.

Lemma accounted_createLiveSSE connection prefix name now w :
  accounted w -> accounted (createLiveSSE connection prefix name now w).
Proof.
  intros A. destruct connection as [conn|]; [|done].
  rewrite createLiveSSE_unfold. cbv zeta.
  set (q := fst (acquireQueueEvents name conn prefix w)).
  set (fresh := attached_session name q (length (sessions w))).
  apply (accounted_loop_head _ _ _ fresh).
  - change (accounted
              (on_source q
                 (fun qe => set_listeners
                              (qe_listeners qe
                               ++ session_listeners (length (sessions w))) qe)
                 (set_sessions (sessions w ++ [fresh])
                    (snd (acquireQueueEvents name conn prefix w))))).
    apply accounted_on_source; [done|]. by apply accounted_open.
  - simpl. by apply list_lookup_middle.
  - done.
Qed.

Lemma accounted_step w e : accounted w -> accounted (step w e).
Proof.
  intros A. destruct e; simpl.
  - by apply accounted_createLiveSSE.
  - by apply accounted_emit.
  - apply accounted_on_session; [by intros s|done].
  - destruct (sessions w !! sid) as [s|] eqn:E; [|done]. simpl.
    destruct (at_phase s) eqn:Hp; try done.
    destruct ok.
    + apply accounted_on_session; [|done]. intros s' E'.
      rewrite E in E'. injection E' as <-.
      unfold holding, ended. simpl. by rewrite Hp.
    + eapply accounted_cleanup; [done..|]. unfold ended. by rewrite Hp.
  - destruct (sessions w !! sid) as [s|] eqn:E; [|done]. simpl.
    destruct (at_phase s) eqn:Hp; try done.
    destruct ok.
    + eapply (accounted_loop_head _ _ _ (set_phase LoopHead s)).
      * apply accounted_on_session; [|done]. intros s' E'.
        rewrite E in E'. injection E' as <-.
        unfold holding, ended. simpl. by rewrite Hp.
      * by rewrite lookup_on_session, E.
      * done.
    + eapply accounted_cleanup; [done..|]. unfold ended. by rewrite Hp.
Qed.

Lemma accounted_run evs w : accounted w -> accounted (run evs w).
Proof.
  revert w. induction evs as [|e evs IH]; intros w A; [done|].
  simpl. apply IH. by apply accounted_step.
Qed.

(** X10.  In every history of the live sessions the count of the entry of
    a queue is the number of sessions streaming that queue that have not
    ended, and the queue has no entry exactly when there is none.  Such a
    session holds the source of the entry; that source was built for the
    queue and [close] has not been called on it; and [close] is called on
    no source twice. *)
Theorem refcount_counts_sessions evs name :
  refCount <$> subscriptions (run evs empty_world) !! name
  = (if decide (live_on name (sessions (run evs empty_world)) = 0%nat)
     then None
     else Some (Z.of_nat (live_on name (sessions (run evs empty_world)))))
  /\ (forall sid s,
        sessions (run evs empty_world) !! sid = Some s ->
        ended s = false -> s_name s = name ->
        exists sub qe,
          subscriptions (run evs empty_world) !! name = Some sub
          /\ queueEvents sub = s_queueEvents s
          /\ heap (run evs empty_world) !! s_queueEvents s = Some qe
          /\ qe_name qe = name
          /\ qe_closes qe = 0%nat)
  /\ (forall o qe,
        heap (run evs empty_world) !! o = Some qe -> (qe_closes qe <= 1)%nat).
Proof.
  pose proof (accounted_run evs _ accounted_empty) as A.
  split; [apply (acc_count _ A)|]. split; [|apply (acc_once _ A)].
  intros sid s E He Hn.
  pose proof (live_on_pos name _ sid s E He Hn) as Hpos.
  pose proof (acc_count _ A name) as Hk.
  rewrite decide_False in Hk by lia.
  destruct (subscriptions (run evs empty_world) !! name) as [sub|] eqn:Hsub;
    [|done].
  pose proof (acc_source _ A sid s sub E He) as Hsrc.
  rewrite Hn in Hsrc. specialize (Hsrc Hsub).
  destruct (acc_open _ A name sub Hsub) as (qe & Hqe & Hqn & Hqc).
  exists sub, qe. rewrite <- Hsrc. by split_and!.
Qed.

(** The first of two clients on "emails" is sent a completed job. *)
Lemma emit_forwards_once_witness :
  exists s,
    sessions (run Examples.two_opened empty_world) !! 0%nat = Some s
    /\ sessions (step (run Examples.two_opened empty_world)
                   (Emit 0 "completed" Examples.job_done)) !! 0%nat
       = Some (if decide (listens 0 "completed" s)
               then writeSSE "completed"
                      (JObj (obj_set "queue" (JStr (s_name s)) Examples.job_done)) s
               else s).
Proof.
  assert (exists s, sessions (run Examples.two_opened empty_world) !! 0%nat = Some s)
    as [s E] by (eexists; vm_compute; reflexivity).
  exists s. split; [exact E|].
  exact (proj1 (emit_forwards_once Examples.two_opened 0 "completed"
                  Examples.job_done 0 s E)).
Defined.

Lemma forwarded_payload_witness :
  "jobId" <> "queue"
  /\ obj_get "jobId" (obj_set "queue" (JStr "emails") Examples.job_done)
     = obj_get "jobId" Examples.job_done.
Proof.
  assert ("jobId" <> "queue") as Hk by discriminate.
  split; [exact Hk|].
  exact (proj1 (proj2 (forwarded_payload Examples.job_done "emails" "jobId")) Hk).
Defined.


(** Two sessions on "emails" hold one source, counted twice. *)
Lemma refcount_counts_sessions_witness :
  exists s sub qe,
    sessions (run Examples.two_opened empty_world) !! 1%nat = Some s
    /\ subscriptions (run Examples.two_opened empty_world) !! "emails" = Some sub
    /\ queueEvents sub = s_queueEvents s
    /\ heap (run Examples.two_opened empty_world) !! s_queueEvents s = Some qe
    /\ qe_name qe = "emails"
    /\ qe_closes qe = 0%nat.
Proof.
  assert (exists s, sessions (run Examples.two_opened empty_world) !! 1%nat = Some s
                    /\ ended s = false /\ s_name s = "emails")
    as (s & E & He & Hn)
    by (eexists; split; [vm_compute; reflexivity|split; vm_compute; reflexivity]).
  destruct (proj1 (proj2 (refcount_counts_sessions Examples.two_opened "emails"))
              1%nat s E He Hn)
    as (sub & qe & H).
  exists s, sub, qe. split; [exact E|exact H].
Defined.

End EventsMore.

(** ** More facts about the polling session *)

Module PollingMore.
Import Polling.

Section Stream.

Variable write_ok : nat -> bool.
Variable aborted_during : nat -> bool.

Local Abbreviation diff_counts := (Polling.diff_counts write_ok aborted_during).
Local Abbreviation step := (Polling.step write_ok aborted_during).
Local Abbreviation run := (Polling.run write_ok aborted_during).

(** Entries that agree with the baseline are passed over. *)
Lemma diff_counts_same (entries : Counts) s :
  Forall (fun e => snd e = count_of (fst e) (lastCounts s)) entries ->
  diff_counts entries s = (true, s).
Proof.
  induction 1 as [|[state count] entries He _ IH]; [done|].
  simpl in *. by rewrite decide_False by (intros H; by apply H).
Qed.

(** The loop changes the written messages, the counter and, when the
    client goes away during a write, [running]. *)
Lemma diff_counts_keeps entries s :
  name (snd (diff_counts entries s)) = name s
  /\ queue (snd (diff_counts entries s)) = queue s
  /\ lastCounts (snd (diff_counts entries s)) = lastCounts s
  /\ at_phase (snd (diff_counts entries s)) = at_phase s.
Proof.
  revert s. induction entries as [|[state count] entries IH]; intros s; [done|].
  simpl. case_decide; [|apply IH].
  pose proof (PollingFacts.abort_if_keeps (aborted_during (eventId s))
                (writeSSE "counts"
                   (delta (name s) state count (count_of state (lastCounts s)))
                   s)) as (Hn & Hq & _ & Hl & _ & Hp).
  destruct (write_ok (eventId s)); [|done].
  destruct (IH (abort_if (aborted_during (eventId s))
                  (writeSSE "counts"
                     (delta (name s) state count (count_of state (lastCounts s)))
                     s)))
    as (-> & -> & -> & ->). done.
Qed.


(** X11.  A tick that reads the counts the baseline already holds writes
    nothing and goes to sleep, whatever the writes would do; so after a
    tick that went to sleep with the client still there, a tick that
    reads the same counts again is silent.  (The counts are an object: a
    state occurs in it once.) *)
Theorem steady_counts_are_silent s counts :
  at_phase s = AwaitCounts -> running s = true ->
  NoDup (fst <$> counts) ->
  (lastCounts s = counts ->
   step s (CountsSettled (Some counts)) = set_phase AwaitSleep s)
  /\ (at_phase (step s (CountsSettled (Some counts))) = AwaitSleep ->
      running (step s (CountsSettled (Some counts))) = true ->
      run [SleepSettled true; CountsSettled (Some counts)]
        (step s (CountsSettled (Some counts)))
      = step s (CountsSettled (Some counts))).
Proof.
  intros Hp Hr Hnd.
  assert (forall s0, lastCounts s0 = counts ->
            Forall (fun e => snd e = count_of (fst e) (lastCounts s0)) counts)
    as Hsame.
  { intros s0 ->. apply Forall_forall. intros [state count] Hin. simpl.
    symmetry. by apply PollingFacts.count_of_entry. }
  assert (forall s0, at_phase s0 = AwaitCounts -> running s0 = true ->
            lastCounts s0 = counts ->
            step s0 (CountsSettled (Some counts)) = set_phase AwaitSleep s0)
    as Hquiet.
  { intros s0 Hp0 Hr0 Hl0.
    rewrite (PollingFacts.step_counts write_ok aborted_during s0 counts Hp0 Hr0).
    rewrite diff_counts_same by by apply Hsame. simpl.
    destruct s0. simpl in *. by subst. }
  split; [by apply Hquiet|].
  intros Hsleep.
  rewrite (PollingFacts.step_counts write_ok aborted_during s counts Hp Hr) in *.
  destruct (diff_counts counts s) as [[] s1]; simpl in *; [|done].
  intros Hr1. rewrite Hr1. simpl. rewrite Hr1. simpl.
  rewrite diff_counts_same by (by apply Hsame). simpl.
  reflexivity.
Qed.






End Stream.

Lemma steady_counts_are_silent_witness :
  run (fun _ => true) (fun _ => false)
    [SleepSettled true; CountsSettled (Some Scenario.three_waiting)]
    (step (fun _ => true) (fun _ => false) Scenario.polling_emails
       (CountsSettled (Some Scenario.three_waiting)))
  = step (fun _ => true) (fun _ => false) Scenario.polling_emails
      (CountsSettled (Some Scenario.three_waiting)).
Proof.
  assert (NoDup (fst <$> Scenario.three_waiting)) as Hnd
    by (apply (bool_decide_unpack _); vm_compute; exact I).
  assert (at_phase (step (fun _ => true) (fun _ => false)
                      Scenario.polling_emails
                      (CountsSettled (Some Scenario.three_waiting)))
          = AwaitSleep) as Hp by (vm_compute; reflexivity).
  assert (running (step (fun _ => true) (fun _ => false)
                     Scenario.polling_emails
                     (CountsSettled (Some Scenario.three_waiting)))
          = true) as Hr by (vm_compute; reflexivity).
  exact (proj2 (steady_counts_are_silent (fun _ => true) (fun _ => false)
                  Scenario.polling_emails Scenario.three_waiting
                  eq_refl eq_refl Hnd) Hp Hr).
Defined.



End PollingMore.

(** ** Facts about the REST router *)

Module ApiFacts.
Import Registry Api.

Lemma guardQueue_cases allowedQueues name registry :
  (guardQueue allowedQueues name (Some registry) = None
   /\ admitted allowedQueues name registry)
  \/ (guardQueue allowedQueues name (Some registry)
      = Some (Done (Answer (Json 400 (error_body "Invalid queue name"))))
      /\ VALID_QUEUE_NAME name = false)
  \/ (guardQueue allowedQueues name (Some registry)
      = Some (Done (Answer
                      (Json 404 (error_body "Queue not found or not accessible"))))
      /\ VALID_QUEUE_NAME name = true
      /\ ((exists allowed, allowedQueues = Some allowed /\ name ∉ allowed)
          \/ has name registry = false)).
Proof.
  unfold guardQueue, admitted. simpl.
  destruct (VALID_QUEUE_NAME name); simpl; [|by right; left].
  destruct allowedQueues as [allowed|]; simpl.
  - case_bool_decide as Hin; simpl.
    + destruct (has name registry); simpl.
      * left. split; [done|]. split; [done|]. split; [|done]. by intros ? [= <-].
      * right; right. split; [done|]. split; [done|]. by right.
    + right; right. split; [done|]. split; [done|]. left. by exists allowed.
  - destruct (has name registry); simpl.
    + left. split; [done|]. split; [done|]. by split.
    + right; right. split; [done|]. split; [done|]. by right.
Qed.

Lemma guardQueue_admitted allowedQueues name registry :
  admitted allowedQueues name registry ->
  guardQueue allowedQueues name (Some registry) = None.
Proof.
  intros (Hv & Ha & Hh).
  destruct (guardQueue_cases allowedQueues name registry)
    as [[-> _]|[[_ Hv']|(_ & _ & [(allowed & E & Hn)|Hh'])]];
    [done|congruence|by specialize (Ha _ E)|congruence].
Qed.

(** What opening a live stream does to the sessions and to the count of
    the queue's entry. *)
Lemma createLiveSSE_opens conn prefix name now w :
  let w' := Events.createLiveSSE (Some conn) prefix name now w in
  (exists s,
     Events.sessions w' = Events.sessions w ++ [s]
     /\ Events.s_name s = name
     /\ Events.running s = true
     /\ Events.ended s = false
     /\ Events.written s
        = [{| event := "heartbeat"; data := JObj [("time", JNum now)];
              id := pretty 0%nat |}])
  /\ Events.refCount <$> Events.subscriptions w' !! name
     = Some (default 0 (Events.refCount <$> Events.subscriptions w !! name) + 1).
Proof.
  cbv zeta. rewrite EventsFacts.createLiveSSE_unfold. cbv zeta.
  set (a := Events.acquireQueueEvents name conn prefix w).
  set (sid := length (Events.sessions w)).
  set (fresh := Events.attached_session name (fst a) sid).
  unfold Events.loop_head.
  cbn [Events.sessions Events.set_sessions].
  rewrite lookup_app_r by (subst sid; lia).
  replace (sid - length (Events.sessions w))%nat with 0%nat by (subst sid; lia).
  cbn [lookup list_lookup fresh Events.attached_session Events.running].
  split.
  - eexists. split.
    + unfold Events.on_session. cbn [Events.sessions Events.set_sessions].
      rewrite alter_app_r_alt by (subst sid; lia).
      replace (sid - length (Events.sessions w))%nat with 0%nat by (subst sid; lia).
      reflexivity.
    + done.
  - unfold Events.on_session, Events.on_source, Events.set_sessions,
      Events.set_heap. cbn [Events.subscriptions].
    subst a. unfold Events.acquireQueueEvents.
    destruct (Events.subscriptions w !! name) as [sub|] eqn:Hs;
      cbn [snd Events.subscriptions Events.set_subscriptions Events.set_heap];
      by rewrite lookup_insert_eq.
Qed.

Section Facts.

Variable close_rejects : nat -> bool.

Local Abbreviation run := (Registry.run close_rejects).

(** An open registry hands out a handle for every name it has. *)
Lemma get_of_has cfg st0 ops name :
  new cfg = inr st0 ->
  closed (run ops st0) = false -> has name (run ops st0) = true ->
  exists h, fst (get name (run ops st0)) = inr h
            /\ q_name (queue h) = name
            /\ q_test (queue h) = testing (run ops st0).
Proof.
  intros Hnew Hc Hh.
  pose proof (RegistryMore.shaped_get name _
                (RegistryMore.shaped_run close_rejects ops _
                   (RegistryMore.shaped_new _ _ Hnew))) as S.
  unfold has in Hh. apply bool_decide_eq_true in Hh as [qc Hq].
  assert (exists h, fst (get name (run ops st0)) = inr h) as [h Hget].
  { destruct (RegistryFacts.get_open_cases name _ Hc)
      as [(mq & _ & E)|[(_ & Hq' & _)|(qc' & mq & st1 & _ & _ & E & _)]];
      [rewrite E; by eexists|congruence|rewrite E; by eexists]. }
  exists h. split; [done|].
  pose proof (RegistryMore.get_returns_managed _ _ _ Hget) as Hm.
  destruct (RegistryShape.shaped_built _ S name h Hm) as (qc' & _ & Hn & Ht & _).
  split; [done|]. rewrite Ht.
  change (snd (get name (run ops st0))) with (Registry.step close_rejects (run ops st0) (Get name)).
  rewrite RegistryFacts.step_config. unfold testing.
  destruct (testing_flag (config (run ops st0))) as [[]|]; simpl;
    by rewrite ?bool_decide_eq_true_2, ?bool_decide_eq_false_2.
Qed.


(** X15.  Once the registry is closed, every request that the guard lets
    through to a queue route, and to the event stream in testing mode, is
    answered 500 with the one fixed body, and nothing is instantiated.
    The event stream of a live registry does not look at the registry's
    queues: it is opened all the same, on a source acquired with the
    registry's connection and prefix. *)
Theorem requests_after_close cfg st0 ops allowedQueues name now w :
  new cfg = inr st0 ->
  closed (run ops st0) = true ->
  admitted allowedQueues name (run ops st0) ->
  (forall call,
     request allowedQueues (OnQueue call) name (Some (run ops st0)) w
     = (Answer (Json 500 (error_body "Internal server error")),
        Some (run ops st0), w))
  /\ (testing (run ops st0) = true ->
      request allowedQueues (EventsStream now) name (Some (run ops st0)) w
      = (Answer (Json 500 (error_body "Internal server error")),
         Some (run ops st0), w))
  /\ (testing (run ops st0) = false ->
      exists conn,
        connection cfg = Some conn
        /\ request allowedQueues (EventsStream now) name (Some (run ops st0)) w
           = (LiveStream (length (Events.sessions w)), Some (run ops st0),
              Events.step w (Events.Open name (Some conn) (prefix cfg) now))).
Proof.
  intros Hnew Hc A. unfold request.
  rewrite (guardQueue_admitted _ _ _ A).
  pose proof (RegistryFacts.run_config close_rejects ops st0) as Hcfg.
  rewrite (RegistryFacts.new_config _ _ Hnew) in Hcfg.
  split; [|split].
  - intros call. unfold queue_route, getRegistry.
    by rewrite RegistryFacts.get_closed.
  - intros Ht. unfold createEventsRoute, Polling.createTestingSSE.
    by rewrite Ht, RegistryFacts.get_closed.
  - intros Ht. unfold createEventsRoute. rewrite Ht.
    pose proof (RegistryShape.shaped_connected _
                  (RegistryMore.shaped_run close_rejects ops _
                     (RegistryMore.shaped_new _ _ Hnew))) as Hconn.
    unfold getConnection, getPrefix. rewrite Hcfg in *.
    destruct Hconn as [conn Hconn].
    { unfold testing in Ht. rewrite Hcfg in Ht.
      destruct (testing_flag cfg) as [[]|]; simpl; [|done..].
      by rewrite bool_decide_eq_true_2 in Ht. }
    exists conn. split; [done|]. by rewrite Hconn.
Qed.

(** X16.  The event stream on an open registry.  In testing mode the
    request instantiates the test queue of the name, as [get] does, and
    polls it, starting from the zero baseline; the subscriptions are not
    touched.  Otherwise the registry is not touched, no queue is
    instantiated: the connection that the constructor insisted on is
    there, so the stream is opened and never refused with 500; the new
    session is the last one, has written its first heartbeat, and the
    count of the queue's entry has gone up by one. *)
Theorem events_route_by_mode cfg st0 ops allowedQueues name now w :
  new cfg = inr st0 ->
  closed (run ops st0) = false ->
  admitted allowedQueues name (run ops st0) ->
  (testing (run ops st0) = true ->
   exists h,
     fst (get name (run ops st0)) = inr h
     /\ q_name (queue h) = name
     /\ q_test (queue h) = true
     /\ request allowedQueues (EventsStream now) name (Some (run ops st0)) w
        = (PollingStream
             {| Polling.name := name; Polling.queue := queue h;
                Polling.eventId := 0;
                Polling.lastCounts := Polling.initial_counts;
                Polling.running := true; Polling.written := [];
                Polling.at_phase := Polling.AwaitCounts |},
           Some (snd (get name (run ops st0))), w))
  /\ (testing (run ops st0) = false ->
      exists conn s,
        connection cfg = Some conn
        /\ request allowedQueues (EventsStream now) name (Some (run ops st0)) w
           = (LiveStream (length (Events.sessions w)), Some (run ops st0),
              Events.step w (Events.Open name (Some conn) (prefix cfg) now))
        /\ Events.sessions
             (Events.step w (Events.Open name (Some conn) (prefix cfg) now))
           = Events.sessions w ++ [s]
        /\ Events.s_name s = name
        /\ Events.written s
           = [{| event := "heartbeat"; data := JObj [("time", JNum now)];
                 id := pretty 0%nat |}]
        /\ Events.refCount
             <$> Events.subscriptions
                   (Events.step w (Events.Open name (Some conn) (prefix cfg) now))
                   !! name
           = Some (default 0 (Events.refCount <$> Events.subscriptions w !! name)
                   + 1)).
Proof.
  intros Hnew Hc A. unfold request.
  rewrite (guardQueue_admitted _ _ _ A).
  pose proof (RegistryFacts.run_config close_rejects ops st0) as Hcfg.
  rewrite (RegistryFacts.new_config _ _ Hnew) in Hcfg.
  split.
  - intros Ht. destruct A as (_ & _ & Hh).
    destruct (get_of_has cfg st0 ops name Hnew Hc Hh) as (h & E & Hn & Hq).
    exists h. rewrite Hq, Ht. split; [done|]. split; [done|]. split; [done|].
    unfold createEventsRoute, Polling.createTestingSSE. rewrite Ht.
    destruct (get name (run ops st0)) as [r st1]. simpl in *. by subst r.
  - intros Ht. unfold createEventsRoute. rewrite Ht.
    pose proof (RegistryShape.shaped_connected _
                  (RegistryMore.shaped_run close_rejects ops _
                     (RegistryMore.shaped_new _ _ Hnew))) as Hconn.
    unfold getConnection, getPrefix. rewrite Hcfg in *.
    destruct Hconn as [conn Hconn].
    { unfold testing in Ht. rewrite Hcfg in Ht.
      destruct (testing_flag cfg) as [[]|]; simpl; [|done..].
      by rewrite bool_decide_eq_true_2 in Ht. }
    destruct (createLiveSSE_opens conn (prefix cfg) name now w)
      as [(s & Hs & Hsn & _ & _ & Hsw) Hk].
    exists conn, s. rewrite Hconn. by split_and!.
Qed.

(** X17.  A test app is always built, and no request to it reaches the
    engine: whatever was requested before, a request leaves the shared
    subscriptions alone, and every handle of its registry is a test queue
    without a connection, with a test worker if it has one. *)
Theorem test_app_needs_no_engine queues :
  exists st0,
    createTestApp queues = inr st0
    /\ forall ops r name w,
         snd (request None r name (Some (run ops st0)) w) = w
         /\ (forall h, fst (get name (run ops st0)) = inr h ->
               q_test (queue h) = true
               /\ q_connection (queue h) = None
               /\ forall wk, worker h = Some wk ->
                    w_test wk = true /\ w_connection wk = None).
Proof.
  eexists. split; [reflexivity|]. intros ops r name w.
  set (cfg := {| connection := None; queues := queues; prefix := None;
                 testing_flag := Some true |}).
  set (st0 := {| config := cfg; managed := ∅; closed := false;
                 next_ref := 0; log := []; pending := None |}).
  assert (new cfg = inr st0) as Hnew by reflexivity.
  pose proof (RegistryFacts.run_config close_rejects ops st0) as Hcfg.
  change (config st0) with cfg in Hcfg.
  split.
  - unfold request.
    destruct (guardQueue None name (Some (run ops st0))) as [res|]; [done|].
    destruct r as [call|now].
    + unfold queue_route, getRegistry.
      by destruct (get name (run ops st0)) as [[err|mq] st1].
    + unfold createEventsRoute, testing. rewrite Hcfg. simpl.
      by destruct (Polling.createTestingSSE name (run ops st0)) as [[err|s] st1].
  - intros h Hget.
    pose proof (RegistryMore.shaped_get name _
                  (RegistryMore.shaped_run close_rejects ops _
                     (RegistryMore.shaped_new _ _ Hnew))) as S.
    pose proof (RegistryMore.get_returns_managed _ _ _ Hget) as Hm.
    destruct (RegistryShape.shaped_built _ S name h Hm)
      as (qc & _ & _ & Ht & Hc & _ & Hnone & Hsome).
    change (snd (get name (run ops st0)))
      with (Registry.step close_rejects (run ops st0) (Get name)) in *.
    rewrite RegistryFacts.step_config, Hcfg in *. simpl in *.
    split; [done|]. split; [done|]. intros wk Hwk.
    destruct (processor qc) as [p|] eqn:Hp.
    + destruct (Hsome p eq_refl) as (wk' & Hwk' & _ & _ & Hwt & Ho).
      rewrite Hwk in Hwk'. injection Hwk' as <-. split; [done|].
      unfold w_connection. by rewrite Ho.
    + rewrite Hnone in Hwk by done. done.
Qed.

End Facts.


(** After [closeAll]: pausing "emails" is refused, its event stream is
    opened. *)
Lemma requests_after_close_witness :
  request (Some ["emails"]) (OnQueue Pause) "emails"
    (Some (run (fun _ => false) [Get "emails"; CloseAll] Examples.live_fresh))
    Events.empty_world
  = (Answer (Json 500 (error_body "Internal server error")),
     Some (run (fun _ => false) [Get "emails"; CloseAll] Examples.live_fresh),
     Events.empty_world)
  /\ exists conn,
       connection Examples.live_config = Some conn
       /\ request (Some ["emails"]) (EventsStream 1000) "emails"
            (Some (run (fun _ => false) [Get "emails"; CloseAll]
                     Examples.live_fresh))
            Events.empty_world
          = (LiveStream (length (Events.sessions Events.empty_world)),
             Some (run (fun _ => false) [Get "emails"; CloseAll]
                     Examples.live_fresh),
             Events.step Events.empty_world
               (Events.Open "emails" (Some conn)
                  (prefix Examples.live_config) 1000)).
Proof.
  assert (closed (run (fun _ => false) [Get "emails"; CloseAll]
                    Examples.live_fresh) = true) as Hc
    by (vm_compute; reflexivity).
  assert (admitted (Some ["emails"]) "emails"
            (run (fun _ => false) [Get "emails"; CloseAll] Examples.live_fresh))
    as A.
  { split; [vm_compute; reflexivity|]. split; [|vm_compute; reflexivity].
    intros allowed Ha. injection Ha as <-. apply list_elem_of_here. }
  assert (testing (run (fun _ => false) [Get "emails"; CloseAll]
                     Examples.live_fresh) = false) as Ht
    by (vm_compute; reflexivity).
  destruct (requests_after_close (fun _ => false) Examples.live_config
              Examples.live_fresh [Get "emails"; CloseAll] (Some ["emails"])
              "emails" 1000 Events.empty_world eq_refl Hc A)
    as (Hq & _ & Hl).
  split; [exact (Hq Pause)|exact (Hl Ht)].
Defined.

(** The event stream of "emails" in a testing registry polls a test
    queue. *)
Lemma events_route_by_mode_witness :
  exists h,
    fst (get "emails" (run (fun _ => false) [] Scenario.two_queues_fresh))
    = inr h
    /\ q_name (queue h) = "emails"
    /\ q_test (queue h) = true.
Proof.
  assert (closed (run (fun _ => false) [] Scenario.two_queues_fresh) = false)
    as Hc by reflexivity.
  assert (admitted None "emails"
            (run (fun _ => false) [] Scenario.two_queues_fresh)) as A.
  { split; [vm_compute; reflexivity|]. split; [|vm_compute; reflexivity].
    intros allowed Ha. discriminate Ha. }
  assert (testing (run (fun _ => false) [] Scenario.two_queues_fresh) = true)
    as Ht by (vm_compute; reflexivity).
  destruct (proj1 (events_route_by_mode (fun _ => false) Scenario.two_queues
                     Scenario.two_queues_fresh [] None "emails" 1000
                     Events.empty_world eq_refl Hc A) Ht)
    as (h & E & Hn & Hq & _).
  exists h. split; [exact E|]. split; [exact Hn|exact Hq].
Defined.

(** The test app of two queues hands out a test queue for "emails". *)
Lemma test_app_needs_no_engine_witness :
  exists st0 h,
    createTestApp (queues Scenario.two_queues) = inr st0
    /\ fst (get "emails" (run (fun _ => false) [] st0)) = inr h
    /\ q_test (queue h) = true
    /\ q_connection (queue h) = None.
Proof.
  destruct (test_app_needs_no_engine (fun _ => false)
              (queues Scenario.two_queues)) as (st0 & E & H).
  assert (createTestApp (queues Scenario.two_queues)
          = inr Scenario.two_queues_fresh) as E' by reflexivity.
  rewrite E' in E. injection E as <-.
  assert (exists h, fst (get "emails"
                           (run (fun _ => false) [] Scenario.two_queues_fresh))
                    = inr h) as [h Hh]
    by (eexists; vm_compute; reflexivity).
  destruct (proj2 (H [] (OnQueue GetJobCounts) "emails" Events.empty_world)
              h Hh) as (Ht & Hc & _).
  exists Scenario.two_queues_fresh, h.
  split; [exact E'|]. split; [exact Hh|]. split; [exact Ht|exact Hc].
Defined.

End ApiFacts.
